(** * Adaptive password hasher: the encoded-hash format, [Hash] and [Verify]

    A shallow embedding of [hasher.go] (package [hasher]) and the properties
    of its header codec, its hashing path and its verification path.

    Conventions of the embedding.
    - Go's [int] and [uint] are taken 64 bits wide (amd64, arm64).  An [int]
      is a [Z]; the places where the source narrows a value ([uint(x)],
      [byte(x)]) are written out as reductions modulo a power of two.  The
      sums the source computes stay far below [2^63] for every hasher that
      [New] returns, so they are plain sums in [Z].
    - A [[]byte] that the code allocates itself is a [list byte] (length and
      capacity agree).  The [hash] argument of [Verify] comes from the caller
      and is a [slice]: its elements, and the part of the backing array
      between its length and its capacity, which a slice expression can
      reach.
    - A function that can panic returns a [run]: what it printed on standard
      output and either its value or the value it panicked with.
    - Allocation is modelled below the runtime's ceiling only ([maxAlloc],
      [2^48] bytes on amd64 and arm64): there [make] panics on a negative
      length and on nothing else.  Above the ceiling the runtime panics with
      "makeslice: len out of range", which [make] and [pbkdf2_Key] leave
      out; every statement that says [Hash] returns a hash therefore
      assumes the hasher [allocatable].  The slices [Verify] allocates are
      no longer than the hash it is given.
    - [pbkdf2.Key], [crypto/rand] and the digests are outside the repository:
      PBKDF2 is a parameter ([Pbkdf2]) of which only the output length is
      known, the random source is the list of bytes it delivers before it
      fails. *)

From Stdlib Require Import ZArith Lia Strings.Byte.
From stdpp Require Import base option list.

#[local] Open Scope Z_scope.

(** ** Bytes and machine integers *)

Abbreviation byte := Byte.byte.
Abbreviation bytes := (list Byte.byte).

Definition byte_to_Z (b : byte) : Z := Z.of_N (Byte.to_N b).

(** [byte(v)]: the low eight bits of [v]. *)
Definition byte_of_Z (v : Z) : byte :=
  default x00 (Byte.of_N (Z.to_N (v mod 256))).

(** [uint(x)] for an [int] [x]: the same 64 bits read as unsigned. *)
Definition uint_of_int (x : Z) : Z := x mod 2 ^ 64.

(** [len(s)] as an [int]. *)
Definition len {A : Type} (l : list A) : Z := Z.of_nat (length l).

(** ** Panics, standard output and the [run] of a call *)

Inductive panic_value : Type :=
  | IndexOutOfRange (i n : Z)          (* runtime error: index out of range [i] with length n *)
  | SliceBoundsOutOfRange (i n : Z)    (* runtime error: slice bounds out of range *)
  | MakesliceLenOutOfRange (n : Z)     (* runtime error: makeslice: len out of range *)
  | NilDereference                     (* runtime error: invalid memory address or nil pointer dereference *)
  | UnsupportedHashKey (key : Z).      (* fmt.Errorf("hash: unsupported hash key: %d", key) *)

Inductive outcome (A : Type) : Type :=
  | Ret (a : A)
  | Panic (p : panic_value).
Arguments Ret {A} a.
Arguments Panic {A} p.

(** A line written by [fmt.Printf("%d < %d\n", a, b)], kept as its two
    arguments. *)
Definition line : Type := Z * Z.

Record run (A : Type) : Type := Run { stdout : list line; result : outcome A }.
Arguments Run {A} stdout result.
Arguments stdout {A} r.
Arguments result {A} r.

Definition ret {A : Type} (a : A) : run A := Run [] (Ret a).
Definition panic {A : Type} (p : panic_value) : run A := Run [] (Panic p).

Definition bind {A B : Type} (m : run A) (f : A -> run B) : run B :=
  match result m with
  | Ret a => let r := f a in Run (stdout m ++ stdout r) (result r)
  | Panic p => Run (stdout m) (Panic p)
  end.

Notation "'let*' x ':=' m 'in' k" := (bind m (fun x => k))
  (at level 10, x name, m at level 100, k at level 200).

Definition Printf (a b : Z) : run unit := Run [(a, b)] (Ret tt).

(** ** Slices *)

(** [make([]byte, n)], for [n] up to the allocation ceiling. *)
Definition make (n : Z) : run bytes :=
  if n <? 0 then panic (MakesliceLenOutOfRange n)
  else ret (replicate (Z.to_nat n) x00).

(** [buf[i]], read. *)
Definition index (buf : bytes) (i : Z) : run byte :=
  match (if 0 <=? i then buf !! Z.to_nat i else None) with
  | Some b => ret b
  | None => panic (IndexOutOfRange i (len buf))
  end.

(** [buf[i] = v]. *)
Definition store (buf : bytes) (i : Z) (v : byte) : run bytes :=
  if (0 <=? i) && (i <? len buf) then ret (<[Z.to_nat i := v]> buf)
  else panic (IndexOutOfRange i (len buf)).

(** [copy(dst, src)]: the first [min(len(dst), len(src))] elements of [dst]
    are overwritten; the value is [dst] afterwards. *)
Definition copy (dst src : bytes) : bytes :=
  take (length dst) src ++ drop (length src) dst.

(** [copy(buf[lo:], src)] for a [buf] whose capacity is its length: the slice
    [buf[lo:]] shares [buf]'s array, so the copy lands in [buf] from [lo]
    on. *)
Definition copy_from (buf : bytes) (lo : Z) (src : bytes) : run bytes :=
  if (0 <=? lo) && (lo <=? len buf) then
    ret (take (Z.to_nat lo) buf ++ copy (drop (Z.to_nat lo) buf) src)
  else panic (SliceBoundsOutOfRange lo (len buf)).

(** A slice handed in by a caller: [elems] are its [len] elements, [spare]
    the rest of the array up to its capacity. *)
Record slice : Type := Slice { elems : bytes; spare : bytes }.

Definition cap (s : slice) : Z := len (elems s) + len (spare s).

(** [s[lo:hi]], read: a slice expression on a slice is bounded by the
    capacity, not by the length. *)
Definition subslice (s : slice) (lo hi : Z) : run bytes :=
  if (0 <=? lo) && (lo <=? hi) && (hi <=? cap s) then
    ret (take (Z.to_nat (hi - lo)) (drop (Z.to_nat lo) (elems s ++ spare s)))
  else panic (SliceBoundsOutOfRange hi (cap s)).

(** ** The consumed packages *)

(** The random source, as the bytes it delivers before it fails. *)
Abbreviation entropy := (list Byte.byte).

Inductive io_error : Type := ErrShortRead.

(** [rand.Read(b)]: fills [b] from the source and returns how many bytes it
    wrote, with an error exactly when that is fewer than [len(b)]. *)
Definition rand_Read (src : entropy) (b : bytes) : bytes * (Z * option io_error) :=
  let n := Nat.min (length src) (length b) in
  (take n src ++ drop n b,
   (Z.of_nat n, if (n <? length b)%nat then Some ErrShortRead else None)).

(** [sha256.New] and [sha512.New]. *)
Inductive digest : Type := sha256_New | sha512_New.

(** PBKDF2 itself: a function of the password, the salt, the iteration count,
    the key length and the digest, whose output has the length asked for. *)
Record Pbkdf2 : Type := {
  derive : bytes -> bytes -> Z -> Z -> digest -> bytes;
  derive_length : forall pwd salt iter keyLen d,
    0 <= keyLen -> len (derive pwd salt iter keyLen d) = keyLen
}.

(** [pbkdf2.Key(password, salt, iter, keyLen, h)].  It ends with
    [dk[:keyLen]], which panics on a negative [keyLen]; a nil [h] panics when
    it is called.  Its buffer [dk] has room for the key rounded up to whole
    digest blocks, at most [keyLen + 63] bytes, taken below the allocation
    ceiling. *)
Definition pbkdf2_Key (K : Pbkdf2) (password salt : bytes) (iter keyLen : Z)
    (h : option digest) : run bytes :=
  match h with
  | None => panic NilDereference
  | Some d =>
      if keyLen <? 0 then panic (SliceBoundsOutOfRange keyLen 0)
      else ret (derive K password salt iter keyLen d)
  end.

(** [subtle.ConstantTimeByteEq(x, y)]: [int((uint32(x^y) - 1) >> 31)]. *)
Definition ConstantTimeByteEq (x y : Z) : Z :=
  Z.shiftr ((Z.lxor x y - 1) mod 2 ^ 32) 31.

(** [subtle.ConstantTimeCompare(x, y)]: [0] at once when the lengths differ,
    else the xor of every pair of bytes is or-ed into one byte, which is
    compared with zero. *)
Definition ConstantTimeCompare (x y : bytes) : Z :=
  if negb (len x =? len y) then 0
  else
    ConstantTimeByteEq
      (fold_left (fun v p => Z.lor v (Z.lxor (byte_to_Z p.1) (byte_to_Z p.2)))
                 (zip x y) 0)
      0.

(** ** Package [hasher] *)

Inductive error : Type :=
  | ErrInvalidIterationCount
  | ErrInvalidSaltSize
  | ErrInvalidKeySize.

Definition HashSHA256 : Z := 1.
Definition HashSHA512 : Z := 2.
Definition DefaultIterationCount : Z := 1000.
Definition DefaultSaltSize : Z := 128.
Definition DefaultKeySize : Z := 256.
Definition DefaultHashKey : Z := HashSHA256.

Record hasher : Type := {
  iterCnt : Z;
  saltSize : Z;
  keySize : Z;
  hashKey : Z
}.

(** A value of the interface [Hasher]: nil, or a pointer to a [hasher]. *)
Definition Hasher : Type := option hasher.

(** [New]: Go's [%] and [/] truncate towards zero ([Z.rem], [Z.quot]). *)
Definition New (iterCtn saltSize keySize hashKey : Z) : Hasher * option error :=
  if iterCtn <? 1 then (None, Some ErrInvalidIterationCount)
  else if negb (Z.rem saltSize 8 =? 0) || (Z.quot saltSize 8 <? 1) then
    (None, Some ErrInvalidSaltSize)
  else if negb (Z.rem keySize 8 =? 0) || (Z.quot keySize 8 <? 1) then
    (None, Some ErrInvalidKeySize)
  else
    (Some {| iterCnt := iterCtn;
             saltSize := Z.quot saltSize 8;
             keySize := Z.quot keySize 8;
             hashKey := hashKey |},
     None).

Definition formatMarker : byte := x01.

(** [alg]: the digest of a hash key, a panic for any other key. *)
Definition alg (key : Z) : run digest :=
  if key =? HashSHA256 then ret sha256_New
  else if key =? HashSHA512 then ret sha512_New
  else panic (UnsupportedHashKey key).

Definition writeHeaderValue (buf : bytes) (offset : Z) (value : Z) : run bytes :=
  let* buf := store buf (offset + 0) (byte_of_Z (Z.shiftr value 24)) in
  let* buf := store buf (offset + 1) (byte_of_Z (Z.shiftr value 16)) in
  let* buf := store buf (offset + 2) (byte_of_Z (Z.shiftr value 8)) in
  let* buf := store buf (offset + 3) (byte_of_Z (Z.shiftr value 0)) in
  ret buf.

(** [(h *hasher) Hash].  The two results of [rand.Read] are dropped, as in
    the source; the arguments of [pbkdf2.Key] are evaluated before the call,
    so [alg] runs first. *)
Definition hasher_Hash (K : Pbkdf2) (h : hasher) (src : entropy) (pwd : bytes)
    : run bytes :=
  let* salt := make (saltSize h) in
  let salt := (rand_Read src salt).1 in
  let* hashFunc := alg (hashKey h) in
  let* subKey := pbkdf2_Key K pwd salt (iterCnt h) (keySize h) (Some hashFunc) in
  let* out := make (13 + saltSize h + keySize h) in
  let* out := store out 0 formatMarker in
  let* out := writeHeaderValue out 1 (uint_of_int (hashKey h)) in
  let* out := writeHeaderValue out 5 (uint_of_int (iterCnt h)) in
  let* out := writeHeaderValue out 9 (uint_of_int (len salt)) in
  let* out := copy_from out 13 salt in
  let* out := copy_from out (13 + len salt) subKey in
  ret out.

(** The named results of [scanHeader]; [hashAlg] starts as nil. *)
Record header : Type := Header {
  hashAlg : option digest;
  hdr_iterCnt : Z;
  hdr_saltSize : Z
}.

(** One turn of the loop of [scanHeader]: the four bytes at [i], [i+1],
    [i+2], [i+3], most significant first, and the [switch] on [i]. *)
Definition scanHeader_body (buf : bytes) (st : header) (i : Z) : run header :=
  let* b0 := index buf (i + 0) in
  let* b1 := index buf (i + 1) in
  let* b2 := index buf (i + 2) in
  let* b3 := index buf (i + 3) in
  let v :=
    Z.lor (Z.lor (Z.lor (Z.shiftl (byte_to_Z b0) 24) (Z.shiftl (byte_to_Z b1) 16))
                 (Z.shiftl (byte_to_Z b2) 8))
          (byte_to_Z b3) in
  if i =? 1 then
    let* a := alg v in
    ret (Header (Some a) (hdr_iterCnt st) (hdr_saltSize st))
  else if i =? 5 then ret (Header (hashAlg st) v (hdr_saltSize st))
  else if i =? 9 then ret (Header (hashAlg st) (hdr_iterCnt st) v)
  else ret st.

(** [for i := 1; i < 13; i += 4 { ... }], at most [fuel] turns. *)
Fixpoint scanHeader_loop (fuel : nat) (buf : bytes) (i : Z) (st : header)
    : run header :=
  match fuel with
  | O => ret st
  | S fuel' =>
      if i <? 13 then
        let* st' := scanHeader_body buf st i in
        scanHeader_loop fuel' buf (i + 4) st'
      else ret st
  end.

(** The loop leaves by its condition after three turns; four is enough. *)
Definition scanHeader (buf : bytes) : run header :=
  scanHeader_loop 4 buf 1 (Header None 0 0).

(** The body of [(h *hasher) Verify], before the deferred function runs. *)
Definition Verify_body (K : Pbkdf2) (h : hasher) (pwd : bytes) (hash : slice)
    : run bool :=
  let* m := index (elems hash) 0 in
  if negb (Byte.eqb m formatMarker) then ret false
  else
    let* hdr := scanHeader (elems hash) in
    let hashFunc := hashAlg hdr in
    let iterCnt := hdr_iterCnt hdr in
    let saltLen := hdr_saltSize hdr in
    let* printed := Printf saltLen (saltSize h) in
    if saltLen <? saltSize h then ret false
    else
      let* salt := make saltLen in
      let* src := subslice hash 13 (13 + saltLen) in
      let salt := copy salt src in
      let subKeyLen := len (elems hash) - 13 - saltLen in
      if subKeyLen <? keySize h then ret false
      else
        let* expected := make subKeyLen in
        let* src := subslice hash (13 + saltLen) (13 + saltLen + subKeyLen) in
        let expected := copy expected src in
        let* actual := pbkdf2_Key K pwd salt iterCnt subKeyLen hashFunc in
        ret (ConstantTimeCompare actual expected =? 1).

(** [defer func() { if r := recover(); r != nil { ok = false } }()]: every
    panic of the body carries a non-nil value, is recovered, and the call
    returns [false]. *)
Definition recovered (body : run bool) : run bool :=
  match result body with
  | Ret _ => body
  | Panic _ => Run (stdout body) (Ret false)
  end.

Definition hasher_Verify (K : Pbkdf2) (h : hasher) (pwd : bytes) (hash : slice)
    : run bool :=
  recovered (Verify_body K h pwd hash).

(** [init] and the package-level functions. *)
Definition defaultHasher : Hasher :=
  (New DefaultIterationCount DefaultSaltSize DefaultKeySize DefaultHashKey).1.

Definition Hash (K : Pbkdf2) (src : entropy) (pwd : bytes) : run bytes :=
  match defaultHasher with
  | Some h => hasher_Hash K h src pwd
  | None => panic NilDereference
  end.

Definition Verify (K : Pbkdf2) (pwd : bytes) (hash : slice) : run bool :=
  match defaultHasher with
  | Some h => hasher_Verify K h pwd hash
  | None => panic NilDereference
  end.

(** ** Vocabulary of the statements *)

(** The four-byte big-endian numeral of the low 32 bits of [v]. *)
Definition be32 (v : Z) : bytes :=
  [byte_of_Z (v / 2 ^ 24); byte_of_Z (v / 2 ^ 16); byte_of_Z (v / 2 ^ 8); byte_of_Z v].

(** The number a big-endian numeral stands for. *)
Definition be_value (bs : bytes) : Z :=
  fold_left (fun acc b => acc * 256 + byte_to_Z b) bs 0.

(** The header field of [buf] at offset [off]: four bytes, big-endian. *)
Definition field (buf : bytes) (off : nat) : Z := be_value (take 4 (drop off buf)).

(** The salt and the sub-key of an encoded hash whose salt is [saltLen]
    bytes long. *)
Definition salt_of (buf : bytes) (saltLen : Z) : bytes :=
  take (Z.to_nat saltLen) (drop 13 buf).
Definition subKey_of (buf : bytes) (saltLen : Z) : bytes :=
  drop (13 + Z.to_nat saltLen) buf.

(** The layout of an encoded hash: marker, the three header fields, salt,
    sub-key. *)
Definition encoded (key iter : Z) (salt subKey : bytes) : bytes :=
  formatMarker :: be32 key ++ be32 iter ++ be32 (len salt) ++ salt ++ subKey.

(** The digest of a selector, when it has one. *)
Definition digest_of (key : Z) : option digest :=
  match result (alg key) with
  | Ret d => Some d
  | Panic _ => None
  end.

(** The allocation ceiling of the runtime: [make] of more bytes panics. *)
Definition maxAlloc : Z := 2 ^ 48.

(** A hasher all of whose allocations in [Hash] stay below the ceiling: the
    salt, the output of [13 + saltSize + keySize] bytes, and the buffer of
    PBKDF2, at most 63 bytes longer than the key. *)
Definition allocatable (h : hasher) : Prop :=
  13 + saltSize h + keySize h + 64 <= maxAlloc.

(** A size in bits that [New] accepts: positive and a multiple of 8. *)
Definition size_ok (bits : Z) : Prop := 0 < bits /\ (8 | bits).

(** A run after some lines were printed. *)
Definition after_lines {A : Type} (ls : list line) (m : run A) : run A :=
  Run (ls ++ stdout m) (result m).

(** A slice whose capacity is its length, as [Hash] returns it. *)
Definition full (buf : bytes) : slice := Slice buf [].

(** A stand-in for PBKDF2, to run the model on concrete inputs: a byte stream
    seeded by all the arguments.  Of the real function it has only the
    output length. *)
Definition sample_derive (pwd salt : bytes) (iter keyLen : Z) (d : digest) : bytes :=
  let tag := match d with sha256_New => 32 | sha512_New => 64 end in
  let seed := fold_left (fun a b => 31 * a + byte_to_Z b) (pwd ++ salt) (iter mod 251 + tag) in
  (fun i => byte_of_Z (seed + 7 * Z.of_nat i)) <$> seq 0 (Z.to_nat keyLen).

Definition sample_pbkdf2 : Pbkdf2.
Proof.
  refine {| derive := sample_derive |}.
  intros pwd salt iter keyLen d H. unfold len, sample_derive.
  rewrite length_fmap, length_seq. lia.
Defined.

(** The salt [Hash] ends up with: a zeroed buffer of [n] bytes, overwritten
    by what the random source delivers. *)
Definition salt_read (src : entropy) (n : Z) : bytes :=
  (rand_Read src (replicate (Z.to_nat n) x00)).1.

(** Sample inputs: the default configuration, a password, and a random
    source that delivers sixteen bytes. *)
Definition sample_hasher : hasher :=
  {| iterCnt := 1000; saltSize := 16; keySize := 32; hashKey := 1 |}.
Definition sample_password : bytes := ["M"; "y"; "T"; "e"; "s"; "t"]%byte.
Definition sample_entropy : entropy :=
  ["a"; "b"; "c"; "d"; "e"; "f"; "g"; "h"; "i"; "j"; "k"; "l"; "m"; "n"; "o"; "p"]%byte.

(** The encoded hash of the sample password under the sample hasher, and an
    encoded hash whose digest selector is 237. *)
Definition sample_hash : bytes :=
  encoded 1 1000 sample_entropy
    (sample_derive sample_password sample_entropy 1000 32 sha256_New).
Definition unknown_digest_hash : bytes :=
  encoded 237 1000 sample_entropy (replicate 32 x00).

(** Two configurations past the range of a header field: a salt of [2^32]
    bytes, and [2^32 + 1] iterations. *)
Definition wide_salt_hasher : hasher :=
  {| iterCnt := 1; saltSize := 4294967296; keySize := 1; hashKey := 1 |}.
Definition wide_iter_hasher : hasher :=
  {| iterCnt := 4294967297; saltSize := 16; keySize := 32; hashKey := 1 |}.

(** * Properties *)

(** ** Bytes *)

Lemma byte_to_Z_range (b : byte) : 0 <= byte_to_Z b < 256.
Proof.
  unfold byte_to_Z. pose proof (Byte.to_N_bounded b) as Hb. lia.
Qed.

Lemma byte_to_of_Z (v : Z) : byte_to_Z (byte_of_Z v) = v mod 256.
Proof.
  unfold byte_to_Z, byte_of_Z.
  assert (Hr : 0 <= v mod 256 < 256) by (apply Z.mod_pos_bound; lia).
  destruct (Byte.of_N (Z.to_N (v mod 256))) as [b|] eqn:E.
  - apply Byte.to_of_N in E. simpl. rewrite E. lia.
  - apply Byte.of_N_None_iff in E. lia.
Qed.

Lemma byte_of_to_Z (b : byte) : byte_of_Z (byte_to_Z b) = b.
Proof.
  unfold byte_of_Z. pose proof (byte_to_Z_range b) as Hb.
  rewrite Z.mod_small by lia. unfold byte_to_Z.
  rewrite N2Z.id, Byte.of_to_N. reflexivity.
Qed.

Lemma byte_to_Z_inj (a b : byte) : byte_to_Z a = byte_to_Z b -> a = b.
Proof.
  intros H. rewrite <- (byte_of_to_Z a), <- (byte_of_to_Z b). congruence.
Qed.

Lemma byte_of_Z_mod (a b : Z) : a mod 256 = b mod 256 -> byte_of_Z a = byte_of_Z b.
Proof. unfold byte_of_Z. intros ->. reflexivity. Qed.

(** ** The [run] monad *)

Lemma bind_ret {A B : Type} (a : A) (f : A -> run B) : bind (ret a) f = f a.
Proof. unfold bind, ret. simpl. destruct (f a). reflexivity. Qed.

Lemma bind_panic {A B : Type} (p : panic_value) (f : A -> run B) :
  bind (panic p) f = panic p.
Proof. reflexivity. Qed.

Lemma result_bind {A B : Type} (m : run A) (f : A -> run B) :
  result (bind m f) =
  match result m with Ret a => result (f a) | Panic p => Panic p end.
Proof. unfold bind. destruct (result m); reflexivity. Qed.

Lemma recovered_ret (b : bool) : recovered (ret b) = ret b.
Proof. reflexivity. Qed.

Lemma recovered_panic (p : panic_value) : recovered (panic p) = ret false.
Proof. reflexivity. Qed.

Lemma result_recovered (body : run bool) :
  result (recovered body) =
  match result body with Ret b => Ret b | Panic _ => Ret false end.
Proof. unfold recovered. destruct (result body) eqn:E; simpl; auto. Qed.

(** ** Slice operations that succeed, and those that panic *)

Lemma make_ok (n : Z) : 0 <= n -> make n = ret (replicate (Z.to_nat n) x00).
Proof. intros H. unfold make. destruct (Z.ltb_spec n 0); [lia | reflexivity]. Qed.

Lemma index_ok (buf : bytes) (i : nat) (b : byte) :
  buf !! i = Some b -> index buf (Z.of_nat i) = ret b.
Proof.
  intros H. unfold index. destruct (Z.leb_spec 0 (Z.of_nat i)); [| lia].
  rewrite Nat2Z.id, H. reflexivity.
Qed.

Lemma index_out (buf : bytes) (i : Z) :
  len buf <= i -> index buf i = panic (IndexOutOfRange i (len buf)).
Proof.
  intros H. unfold index, len in *. destruct (Z.leb_spec 0 i); [| reflexivity].
  rewrite lookup_ge_None_2 by lia. reflexivity.
Qed.

Lemma store_ok (buf : bytes) (i : nat) (v : byte) :
  (i < length buf)%nat -> store buf (Z.of_nat i) v = ret (<[i := v]> buf).
Proof.
  intros H. unfold store, len.
  destruct (Z.leb_spec 0 (Z.of_nat i)); [| lia].
  destruct (Z.ltb_spec (Z.of_nat i) (Z.of_nat (length buf))); [| lia].
  simpl. rewrite Nat2Z.id. reflexivity.
Qed.

Lemma copy_exact (dst src : bytes) (rest : bytes) :
  length dst = length src -> copy (dst ++ rest) src = src ++ rest.
Proof.
  intros H. unfold copy. rewrite length_app.
  rewrite take_ge by lia. rewrite <- H, drop_app_length. reflexivity.
Qed.

Lemma copy_from_ok (pre dst rest src : bytes) (lo : Z) :
  lo = len pre -> length dst = length src ->
  copy_from (pre ++ dst ++ rest) lo src = ret (pre ++ src ++ rest).
Proof.
  intros -> H. unfold copy_from, len.
  destruct (Z.leb_spec 0 (Z.of_nat (length pre))); [| lia].
  rewrite length_app.
  destruct (Z.leb_spec (Z.of_nat (length pre)) (Z.of_nat (length pre + length (dst ++ rest))));
    [| lia].
  simpl. rewrite Nat2Z.id, take_app_length, drop_app_length, copy_exact by done.
  reflexivity.
Qed.

Lemma subslice_ok (s : slice) (lo hi : nat) :
  (lo <= hi)%nat -> Z.of_nat hi <= cap s ->
  subslice s (Z.of_nat lo) (Z.of_nat hi) =
  ret (take (hi - lo) (drop lo (elems s ++ spare s))).
Proof.
  intros H1 H2. unfold subslice.
  destruct (Z.leb_spec 0 (Z.of_nat lo)); [| lia].
  destruct (Z.leb_spec (Z.of_nat lo) (Z.of_nat hi)); [| lia].
  destruct (Z.leb_spec (Z.of_nat hi) (cap s)); [| lia].
  simpl. rewrite Nat2Z.id. replace (Z.to_nat (Z.of_nat hi - Z.of_nat lo)) with (hi - lo)%nat by lia.
  reflexivity.
Qed.

Lemma subslice_out (s : slice) (lo hi : Z) :
  cap s < hi -> subslice s lo hi = panic (SliceBoundsOutOfRange hi (cap s)).
Proof.
  intros H. unfold subslice.
  destruct (Z.leb_spec hi (cap s)); [lia |]. rewrite andb_false_r. reflexivity.
Qed.

Lemma rand_Read_length (src : entropy) (b : bytes) :
  length (rand_Read src b).1 = length b.
Proof.
  unfold rand_Read. simpl. rewrite length_app, length_take, length_drop. lia.
Qed.

Lemma rand_Read_enough (src : entropy) (b : bytes) :
  (length b <= length src)%nat ->
  rand_Read src b = (take (length b) src, (len b, None)).
Proof.
  intros H. unfold rand_Read, len.
  rewrite Nat.min_r by lia. rewrite drop_all, app_nil_r.
  destruct (Nat.ltb_spec (length b) (length b)); [lia | reflexivity].
Qed.

(** ** The header codec *)

Lemma lor_shiftl_add (a b n : Z) :
  0 <= n -> 0 <= b < 2 ^ n -> Z.lor (Z.shiftl a n) b = a * 2 ^ n + b.
Proof.
  intros Hn Hb.
  assert (Hland : Z.land (Z.shiftl a n) b = 0).
  { apply Z.bits_inj'. intros m Hm. rewrite Z.land_spec, Z.bits_0.
    destruct (Z.lt_ge_cases m n) as [Hlt | Hge].
    - rewrite Z.shiftl_spec_low by lia. reflexivity.
    - rewrite <- (Z.mod_small b (2 ^ n)) by lia.
      rewrite Z.mod_pow2_bits_high by lia. apply andb_false_r. }
  rewrite <- Z.lxor_lor by exact Hland.
  rewrite <- Z.add_nocarry_lxor by exact Hland.
  rewrite Z.shiftl_mul_pow2 by lia. reflexivity.
Qed.

(** The shifts and ors of [scanHeader] compute the big-endian value. *)
Lemma scanned_value (b0 b1 b2 b3 : byte) :
  Z.lor (Z.lor (Z.lor (Z.shiftl (byte_to_Z b0) 24) (Z.shiftl (byte_to_Z b1) 16))
               (Z.shiftl (byte_to_Z b2) 8))
        (byte_to_Z b3)
  = be_value [b0; b1; b2; b3].
Proof.
  pose proof (byte_to_Z_range b0). pose proof (byte_to_Z_range b1).
  pose proof (byte_to_Z_range b2). pose proof (byte_to_Z_range b3).
  unfold be_value. simpl.
  rewrite (Z.shiftl_mul_pow2 (byte_to_Z b1)), (Z.shiftl_mul_pow2 (byte_to_Z b2)) by lia.
  rewrite (lor_shiftl_add (byte_to_Z b0) _ 24) by lia.
  replace (byte_to_Z b0 * 2 ^ 24 + byte_to_Z b1 * 2 ^ 16)
    with (Z.shiftl (byte_to_Z b0 * 2 ^ 8 + byte_to_Z b1) 16)
    by (rewrite Z.shiftl_mul_pow2 by lia; lia).
  rewrite (lor_shiftl_add _ _ 16) by lia.
  replace ((byte_to_Z b0 * 2 ^ 8 + byte_to_Z b1) * 2 ^ 16 + byte_to_Z b2 * 2 ^ 8)
    with (Z.shiftl ((byte_to_Z b0 * 2 ^ 8 + byte_to_Z b1) * 2 ^ 8 + byte_to_Z b2) 8)
    by (rewrite Z.shiftl_mul_pow2 by lia; lia).
  rewrite (lor_shiftl_add _ _ 8) by lia.
  lia.
Qed.

Lemma be_value_range (b0 b1 b2 b3 : byte) : 0 <= be_value [b0; b1; b2; b3] < 2 ^ 32.
Proof.
  pose proof (byte_to_Z_range b0). pose proof (byte_to_Z_range b1).
  pose proof (byte_to_Z_range b2). pose proof (byte_to_Z_range b3).
  unfold be_value. simpl. lia.
Qed.

(** Decoding an encoded field gives back the low 32 bits. *)
Lemma be_value_be32 (v : Z) : be_value (be32 v) = v mod 2 ^ 32.
Proof.
  unfold be_value, be32. simpl. rewrite !byte_to_of_Z.
  change (2 ^ 24) with 16777216. change (2 ^ 16) with 65536.
  change (2 ^ 8) with 256. change (2 ^ 32) with 4294967296.
  Z.div_mod_to_equations. lia.
Qed.

Lemma be_value_be32_small (v : Z) : 0 <= v < 2 ^ 32 -> be_value (be32 v) = v.
Proof. intros H. rewrite be_value_be32. apply Z.mod_small. exact H. Qed.

(** What [writeHeaderValue] stores for [uint(x)] is [be32 x]. *)
Lemma header_bytes (x : Z) :
  [byte_of_Z (Z.shiftr (uint_of_int x) 24); byte_of_Z (Z.shiftr (uint_of_int x) 16);
   byte_of_Z (Z.shiftr (uint_of_int x) 8); byte_of_Z (Z.shiftr (uint_of_int x) 0)]
  = be32 x.
Proof.
  assert (Hlow : forall n, 0 <= n <= 24 ->
            byte_of_Z (Z.shiftr (uint_of_int x) n) = byte_of_Z (x / 2 ^ n)).
  { intros n Hn. apply byte_of_Z_mod. unfold uint_of_int.
    rewrite Z.shiftr_div_pow2 by lia.
    replace 256 with (2 ^ 8) by reflexivity.
    rewrite <- !Z.shiftr_div_pow2 by lia.
    rewrite <- !Z.land_ones by lia.
    apply Z.bits_inj'. intros m Hm.
    rewrite !Z.land_spec, !Z.shiftr_spec, Z.land_spec by lia.
    destruct (Z.lt_ge_cases m 8).
    - rewrite (Z.ones_spec_low 64 (m + n)) by lia. rewrite andb_true_r. reflexivity.
    - rewrite (Z.ones_spec_high 8 m) by lia. rewrite !andb_false_r. reflexivity. }
  unfold be32. rewrite !Hlow by lia. rewrite Z.div_1_r. reflexivity.
Qed.

Lemma writeHeaderValue_ok (pre post : bytes) (a b c d : byte) (value : Z) :
  writeHeaderValue (pre ++ a :: b :: c :: d :: post) (len pre) value =
  ret (pre ++ [byte_of_Z (Z.shiftr value 24); byte_of_Z (Z.shiftr value 16);
               byte_of_Z (Z.shiftr value 8); byte_of_Z (Z.shiftr value 0)] ++ post).
Proof.
  unfold writeHeaderValue, len.
  replace (Z.of_nat (length pre) + 0) with (Z.of_nat (length pre + 0)) by lia.
  replace (Z.of_nat (length pre) + 1) with (Z.of_nat (length pre + 1)) by lia.
  replace (Z.of_nat (length pre) + 2) with (Z.of_nat (length pre + 2)) by lia.
  replace (Z.of_nat (length pre) + 3) with (Z.of_nat (length pre + 3)) by lia.
  rewrite store_ok by (rewrite length_app; simpl; lia).
  rewrite bind_ret, insert_app_r. simpl.
  rewrite store_ok by (rewrite length_app; simpl; lia).
  rewrite bind_ret, insert_app_r. simpl.
  rewrite store_ok by (rewrite length_app; simpl; lia).
  rewrite bind_ret, insert_app_r. simpl.
  rewrite store_ok by (rewrite length_app; simpl; lia).
  rewrite bind_ret, insert_app_r. simpl.
  reflexivity.
Qed.

Lemma writeHeaderValue_at (buf pre post : bytes) (a b c d : byte) (offset x : Z) :
  buf = pre ++ a :: b :: c :: d :: post -> offset = len pre ->
  writeHeaderValue buf offset (uint_of_int x) = ret (pre ++ be32 x ++ post).
Proof.
  intros -> ->. rewrite writeHeaderValue_ok, header_bytes. reflexivity.
Qed.

(** ** [Hash] *)

Lemma store_head (a v : byte) (rest : bytes) : store (a :: rest) 0 v = ret (v :: rest).
Proof. reflexivity. Qed.

Lemma alg_digest_of (key : Z) (d : digest) : digest_of key = Some d -> alg key = ret d.
Proof.
  unfold digest_of, alg.
  destruct (key =? HashSHA256); [simpl; congruence |].
  destruct (key =? HashSHA512); simpl; congruence.
Qed.

Lemma digest_of_known (key : Z) :
  is_Some (digest_of key) <-> key = HashSHA256 \/ key = HashSHA512.
Proof.
  unfold digest_of, alg.
  destruct (Z.eqb_spec key HashSHA256) as [-> | H1]; simpl.
  { split; [auto | intros _; eexists; reflexivity]. }
  destruct (Z.eqb_spec key HashSHA512) as [-> | H2]; simpl.
  { split; [auto | intros _; eexists; reflexivity]. }
  split; [intros [d Hd]; discriminate | tauto].
Qed.

Lemma alg_unknown (key : Z) :
  digest_of key = None -> alg key = panic (UnsupportedHashKey key).
Proof.
  unfold digest_of, alg.
  destruct (key =? HashSHA256); [simpl; congruence |].
  destruct (key =? HashSHA512); simpl; congruence.
Qed.

Lemma salt_read_len (src : entropy) (n : Z) : 0 <= n -> len (salt_read src n) = n.
Proof.
  intros H. unfold len, salt_read. rewrite rand_Read_length, length_replicate. lia.
Qed.

(** On a hasher with non-negative sizes and a known hash key, [Hash] returns
    the encoded hash of the salt it read and of the sub-key derived from
    it. *)
Lemma hasher_Hash_ok (K : Pbkdf2) (h : hasher) (src : entropy) (pwd : bytes) (d : digest) :
  0 <= saltSize h -> 0 <= keySize h -> digest_of (hashKey h) = Some d ->
  hasher_Hash K h src pwd =
  ret (encoded (hashKey h) (iterCnt h) (salt_read src (saltSize h))
         (derive K pwd (salt_read src (saltSize h)) (iterCnt h) (keySize h) d)).
Proof.
  intros Hs Hk Hd. unfold hasher_Hash.
  rewrite make_ok, bind_ret by lia.
  fold (salt_read src (saltSize h)).
  pose proof (salt_read_len src (saltSize h) Hs) as Hlen.
  set (salt := salt_read src (saltSize h)) in *.
  rewrite (alg_digest_of _ _ Hd), bind_ret.
  unfold pbkdf2_Key. destruct (Z.ltb_spec (keySize h) 0); [lia |].
  rewrite bind_ret.
  pose proof (derive_length K pwd salt (iterCnt h) (keySize h) d Hk) as Hklen.
  set (subKey := derive K pwd salt (iterCnt h) (keySize h) d) in *.
  rewrite make_ok, bind_ret by lia.
  replace (Z.to_nat (13 + saltSize h + keySize h))
    with (13 + (Z.to_nat (saltSize h) + Z.to_nat (keySize h)))%nat by lia.
  rewrite !replicate_add. simpl replicate at 1.
  simpl app at 1.
  rewrite store_head, bind_ret.
  erewrite (writeHeaderValue_at _ [_]); [| reflexivity | reflexivity].
  rewrite bind_ret.
  erewrite (writeHeaderValue_at _ [_; _; _; _; _]); [| reflexivity | reflexivity].
  rewrite bind_ret.
  erewrite (writeHeaderValue_at _ [_; _; _; _; _; _; _; _; _]); [| reflexivity | reflexivity].
  rewrite bind_ret.
  rewrite (app_assoc _ (be32 (len salt))).
  rewrite (copy_from_ok _ _ _ salt 13);
    [| reflexivity | rewrite length_replicate; unfold len in Hlen; lia].
  rewrite bind_ret.
  rewrite <- (app_nil_r (replicate (Z.to_nat (keySize h)) x00)).
  rewrite (app_assoc _ salt).
  rewrite (copy_from_ok _ _ _ subKey (13 + len salt));
    [| unfold len; rewrite length_app; simpl; lia
     | rewrite length_replicate; unfold len in Hklen; lia].
  rewrite bind_ret, app_nil_r, <- !app_assoc. reflexivity.
Qed.

(** ** [scanHeader] *)

Lemma index_at (buf : bytes) (i : Z) (b : byte) :
  0 <= i -> buf !! Z.to_nat i = Some b -> index buf i = ret b.
Proof.
  intros Hi H. rewrite <- (Z2Nat.id i) by lia. apply index_ok. exact H.
Qed.

Lemma index_cases (buf : bytes) (i : Z) :
  (exists b, index buf i = ret b) \/ (exists p, index buf i = panic p).
Proof.
  unfold index.
  destruct (if 0 <=? i then buf !! Z.to_nat i else None); eauto.
Qed.

Lemma alg_cases (key : Z) :
  (exists d, alg key = ret d) \/ (exists p, alg key = panic p).
Proof.
  unfold alg. destruct (key =? HashSHA256); [eauto |].
  destruct (key =? HashSHA512); eauto.
Qed.

Lemma field_lookup (buf : bytes) (i : nat) (b0 b1 b2 b3 : byte) :
  buf !! i = Some b0 -> buf !! (i + 1)%nat = Some b1 ->
  buf !! (i + 2)%nat = Some b2 -> buf !! (i + 3)%nat = Some b3 ->
  field buf i = be_value [b0; b1; b2; b3].
Proof.
  intros H0 H1 H2 H3. unfold field. f_equal.
  rewrite (drop_S _ _ _ H0).
  replace (S i) with (i + 1)%nat by lia. rewrite (drop_S _ _ _ H1).
  replace (S (i + 1)) with (i + 2)%nat by lia. rewrite (drop_S _ _ _ H2).
  replace (S (i + 2)) with (i + 3)%nat by lia. rewrite (drop_S _ _ _ H3).
  reflexivity.
Qed.

Lemma field_range (buf : bytes) (i : nat) :
  (i + 4 <= length buf)%nat -> 0 <= field buf i < 2 ^ 32.
Proof.
  intros H.
  destruct (lookup_lt_is_Some_2 buf i) as [b0 H0]; [lia |].
  destruct (lookup_lt_is_Some_2 buf (i + 1)) as [b1 H1]; [lia |].
  destruct (lookup_lt_is_Some_2 buf (i + 2)) as [b2 H2]; [lia |].
  destruct (lookup_lt_is_Some_2 buf (i + 3)) as [b3 H3]; [lia |].
  rewrite (field_lookup _ _ _ _ _ _ H0 H1 H2 H3). apply be_value_range.
Qed.

(** One turn of the loop on a buffer that holds the four bytes. *)
Lemma scanHeader_body_ok (buf : bytes) (st : header) (i : Z) :
  0 <= i -> i + 4 <= len buf ->
  scanHeader_body buf st i =
  let v := field buf (Z.to_nat i) in
  if i =? 1 then
    let* a := alg v in ret (Header (Some a) (hdr_iterCnt st) (hdr_saltSize st))
  else if i =? 5 then ret (Header (hashAlg st) v (hdr_saltSize st))
  else if i =? 9 then ret (Header (hashAlg st) (hdr_iterCnt st) v)
  else ret st.
Proof.
  intros Hi Hlen. unfold len in Hlen.
  destruct (lookup_lt_is_Some_2 buf (Z.to_nat i)) as [b0 H0]; [lia |].
  destruct (lookup_lt_is_Some_2 buf (Z.to_nat i + 1)) as [b1 H1]; [lia |].
  destruct (lookup_lt_is_Some_2 buf (Z.to_nat i + 2)) as [b2 H2]; [lia |].
  destruct (lookup_lt_is_Some_2 buf (Z.to_nat i + 3)) as [b3 H3]; [lia |].
  unfold scanHeader_body.
  rewrite (index_at buf (i + 0) b0), bind_ret
    by (try lia; replace (Z.to_nat (i + 0)) with (Z.to_nat i) by lia; done).
  rewrite (index_at buf (i + 1) b1), bind_ret
    by (try lia; replace (Z.to_nat (i + 1)) with (Z.to_nat i + 1)%nat by lia; done).
  rewrite (index_at buf (i + 2) b2), bind_ret
    by (try lia; replace (Z.to_nat (i + 2)) with (Z.to_nat i + 2)%nat by lia; done).
  rewrite (index_at buf (i + 3) b3), bind_ret
    by (try lia; replace (Z.to_nat (i + 3)) with (Z.to_nat i + 3)%nat by lia; done).
  rewrite scanned_value, <- (field_lookup buf (Z.to_nat i) _ _ _ _ H0 H1 H2 H3).
  reflexivity.
Qed.

(** One turn of the loop on a buffer that ends before the fourth byte. *)
Lemma scanHeader_body_short (buf : bytes) (st : header) (i : Z) :
  len buf < i + 4 -> exists p, scanHeader_body buf st i = panic p.
Proof.
  intros Hlen. unfold scanHeader_body.
  destruct (index_cases buf (i + 0)) as [[b0 ->] | [p ->]]; [| eauto].
  rewrite bind_ret.
  destruct (index_cases buf (i + 1)) as [[b1 ->] | [p ->]]; [| eauto].
  rewrite bind_ret.
  destruct (index_cases buf (i + 2)) as [[b2 ->] | [p ->]]; [| eauto].
  rewrite bind_ret.
  rewrite index_out by lia. eauto.
Qed.

Lemma scanHeader_body_cases (buf : bytes) (st : header) (i : Z) :
  (exists st', scanHeader_body buf st i = ret st') \/
  (exists p, scanHeader_body buf st i = panic p).
Proof.
  unfold scanHeader_body.
  destruct (index_cases buf (i + 0)) as [[b0 ->] | [p ->]]; [| eauto].
  rewrite bind_ret.
  destruct (index_cases buf (i + 1)) as [[b1 ->] | [p ->]]; [| eauto].
  rewrite bind_ret.
  destruct (index_cases buf (i + 2)) as [[b2 ->] | [p ->]]; [| eauto].
  rewrite bind_ret.
  destruct (index_cases buf (i + 3)) as [[b3 ->] | [p ->]]; [| eauto].
  rewrite bind_ret.
  destruct (i =? 1).
  { match goal with |- context [alg ?v] => destruct (alg_cases v) as [[d ->] | [p ->]] end;
      [rewrite bind_ret |]; eauto. }
  destruct (i =? 5); [eauto |]. destruct (i =? 9); eauto.
Qed.

(** On thirteen bytes or more, [scanHeader] returns the three fields, unless
    the first is no hash key. *)
Lemma scanHeader_long (buf : bytes) :
  13 <= len buf ->
  scanHeader buf =
  let* a := alg (field buf 1) in ret (Header (Some a) (field buf 5) (field buf 9)).
Proof.
  intros Hlen. unfold scanHeader. simpl scanHeader_loop.
  change (1 + 4 + 4) with 9. change (1 + 4) with 5.
  rewrite (scanHeader_body_ok buf _ 1) by lia.
  change (Z.to_nat 1) with 1%nat. cbv zeta. change (1 =? 1) with true. cbv iota.
  destruct (alg_cases (field buf 1)) as [[d ->] | [p ->]]; [| reflexivity].
  rewrite !bind_ret.
  rewrite (scanHeader_body_ok buf _ 5) by lia.
  change (Z.to_nat 5) with 5%nat. cbv zeta.
  change (5 =? 1) with false. change (5 =? 5) with true. cbv iota.
  rewrite bind_ret.
  rewrite (scanHeader_body_ok buf _ 9) by lia.
  change (Z.to_nat 9) with 9%nat. cbv zeta.
  change (9 =? 1) with false. change (9 =? 5) with false. change (9 =? 9) with true.
  cbv iota. rewrite bind_ret.
  reflexivity.
Qed.

(** On fewer than thirteen bytes it panics. *)
Lemma scanHeader_short (buf : bytes) :
  len buf < 13 -> exists p, scanHeader buf = panic p.
Proof.
  intros Hlen. unfold scanHeader. simpl scanHeader_loop.
  destruct (scanHeader_body_cases buf (Header None 0 0) 1) as [[st1 ->] | [p ->]]; [| eauto].
  rewrite bind_ret.
  destruct (scanHeader_body_cases buf st1 (1 + 4)) as [[st2 ->] | [p ->]]; [| eauto].
  rewrite bind_ret.
  destruct (scanHeader_body_short buf st2 (1 + 4 + 4)) as [p ->]; [simpl; lia |].
  eauto.
Qed.

(** ** [Verify] *)

Lemma bind_Printf {B : Type} (a b : Z) (f : unit -> run B) :
  bind (Printf a b) f = after_lines [(a, b)] (f tt).
Proof. reflexivity. Qed.

Lemma recovered_after_lines (ls : list line) (m : run bool) :
  recovered (after_lines ls m) = after_lines ls (recovered m).
Proof.
  destruct m as [out [b | p]]; reflexivity.
Qed.

Lemma after_lines_ret {A : Type} (ls : list line) (a : A) :
  after_lines ls (ret a) = Run ls (Ret a).
Proof. unfold after_lines. simpl. rewrite app_nil_r. reflexivity. Qed.

Lemma subslice_in (s : slice) (lo hi : Z) :
  0 <= lo <= hi -> hi <= cap s ->
  subslice s lo hi = ret (take (Z.to_nat (hi - lo)) (drop (Z.to_nat lo) (elems s ++ spare s))).
Proof.
  intros [H1 H2] H3. unfold subslice.
  destruct (Z.leb_spec 0 lo); [| lia]. destruct (Z.leb_spec lo hi); [| lia].
  destruct (Z.leb_spec hi (cap s)); [| lia]. reflexivity.
Qed.

Lemma copy_fresh (n : nat) (src : bytes) :
  length src = n -> copy (replicate n x00) src = src.
Proof.
  intros H. rewrite <- (app_nil_r (replicate n x00)).
  rewrite copy_exact by (rewrite length_replicate; lia). apply app_nil_r.
Qed.

(** [Verify] on a hash of thirteen bytes or more that starts with the format
    marker and names a known digest: the line it prints and, test by test,
    the value it returns. *)
Lemma hasher_Verify_long (K : Pbkdf2) (h : hasher) (pwd : bytes) (hash : slice) (d : digest) :
  13 <= len (elems hash) ->
  elems hash !! 0%nat = Some formatMarker ->
  digest_of (field (elems hash) 1) = Some d ->
  let saltLen := field (elems hash) 9 in
  let subKeyLen := len (elems hash) - 13 - saltLen in
  hasher_Verify K h pwd hash =
  Run [(saltLen, saltSize h)]
    (Ret (if saltLen <? saltSize h then false
          else if cap hash <? 13 + saltLen then false
          else if subKeyLen <? keySize h then false
          else if subKeyLen <? 0 then false
          else ConstantTimeCompare
                 (derive K pwd
                    (take (Z.to_nat saltLen) (drop 13 (elems hash ++ spare hash)))
                    (field (elems hash) 5) subKeyLen d)
                 (drop (Z.to_nat (13 + saltLen)) (elems hash)) =? 1)).
Proof.
  intros Hlen Hm Hd saltLen subKeyLen.
  assert (Hsalt : 0 <= saltLen < 2 ^ 32) by (apply field_range; unfold len in Hlen; lia).
  unfold hasher_Verify, Verify_body.
  rewrite (index_at _ 0 formatMarker), bind_ret by (try lia; exact Hm).
  simpl negb. cbv iota.
  rewrite scanHeader_long by exact Hlen.
  rewrite (alg_digest_of _ _ Hd), !bind_ret. simpl hashAlg. simpl hdr_iterCnt.
  simpl hdr_saltSize. fold saltLen. fold subKeyLen.
  rewrite bind_Printf, recovered_after_lines, <- after_lines_ret. f_equal.
  destruct (Z.ltb_spec saltLen (saltSize h)); [reflexivity |].
  rewrite make_ok, bind_ret by lia.
  destruct (Z.ltb_spec (cap hash) (13 + saltLen)).
  { rewrite subslice_out by lia. reflexivity. }
  rewrite subslice_in, bind_ret by lia.
  destruct (Z.ltb_spec subKeyLen (keySize h)); [reflexivity |].
  destruct (Z.ltb_spec subKeyLen 0) as [Hneg | Hpos].
  { unfold make. destruct (Z.ltb_spec subKeyLen 0); [reflexivity | lia]. }
  rewrite make_ok, bind_ret by lia.
  rewrite subslice_in, bind_ret by (unfold cap, subKeyLen, len in *; lia).
  unfold pbkdf2_Key. destruct (Z.ltb_spec subKeyLen 0); [lia |].
  rewrite bind_ret, recovered_ret. do 3 f_equal.
  - f_equal. replace (13 + saltLen - 13) with saltLen by lia.
    apply copy_fresh. rewrite length_take, length_drop, length_app.
    unfold cap, len in *. lia.
  - replace (13 + saltLen + subKeyLen - (13 + saltLen)) with subKeyLen by lia.
    rewrite copy_fresh.
    + rewrite drop_app_le by (unfold subKeyLen, len in *; lia).
      rewrite take_app_le by (rewrite length_drop; unfold subKeyLen, len in *; lia).
      apply take_ge. rewrite length_drop. unfold subKeyLen, len in *. lia.
    + rewrite length_take, length_drop, length_app. unfold subKeyLen, len in *. lia.
Qed.

Lemma hasher_Verify_marker (K : Pbkdf2) (h : hasher) (pwd : bytes) (hash : slice) (m : byte) :
  elems hash !! 0%nat = Some m -> m <> formatMarker ->
  hasher_Verify K h pwd hash = ret false.
Proof.
  intros Hm Hne. unfold hasher_Verify, Verify_body.
  rewrite (index_at _ 0 m), bind_ret by (try lia; exact Hm).
  destruct (Byte.eqb m formatMarker) eqn:E.
  - apply Byte.byte_dec_bl in E. contradiction.
  - reflexivity.
Qed.

Lemma hasher_Verify_short (K : Pbkdf2) (h : hasher) (pwd : bytes) (hash : slice) :
  len (elems hash) < 13 -> hasher_Verify K h pwd hash = ret false.
Proof.
  intros Hlen. unfold hasher_Verify, Verify_body.
  destruct (index_cases (elems hash) 0) as [[m ->] | [p ->]]; [| reflexivity].
  rewrite bind_ret. destruct (negb (Byte.eqb m formatMarker)); [reflexivity |].
  destruct (scanHeader_short _ Hlen) as [p ->]. reflexivity.
Qed.

Lemma hasher_Verify_unknown (K : Pbkdf2) (h : hasher) (pwd : bytes) (hash : slice) :
  13 <= len (elems hash) -> digest_of (field (elems hash) 1) = None ->
  hasher_Verify K h pwd hash = ret false.
Proof.
  intros Hlen Hd. unfold hasher_Verify, Verify_body.
  destruct (index_cases (elems hash) 0) as [[m ->] | [p ->]]; [| reflexivity].
  rewrite bind_ret. destruct (negb (Byte.eqb m formatMarker)); [reflexivity |].
  rewrite scanHeader_long by exact Hlen.
  rewrite (alg_unknown _ Hd). reflexivity.
Qed.

(** ** [subtle.ConstantTimeCompare] *)

Lemma byte_bits_bound (a : Z) : 0 <= a -> (a < 256 <-> forall m, 8 <= m -> Z.testbit a m = false).
Proof.
  intros Ha. split.
  - intros Hlt m Hm. rewrite <- (Z.mod_small a (2 ^ 8)) by (change (2 ^ 8) with 256; lia).
    apply Z.mod_pow2_bits_high. lia.
  - intros Hbits. destruct (Z.lt_ge_cases a 256) as [|Hge]; [assumption | exfalso].
    assert (Hpos : 0 < a) by lia.
    pose proof (Z.bit_log2 a Hpos) as Hb.
    rewrite Hbits in Hb; [discriminate |].
    apply (Z.log2_le_mono 256 a) in Hge. change (Z.log2 256) with 8 in Hge. exact Hge.
Qed.

Lemma lor_lxor_byte (v a b : Z) :
  0 <= v < 256 -> 0 <= a < 256 -> 0 <= b < 256 -> 0 <= Z.lor v (Z.lxor a b) < 256.
Proof.
  intros Hv Ha Hb.
  assert (H0 : 0 <= Z.lor v (Z.lxor a b)).
  { apply Z.lor_nonneg. split; [lia |]. apply Z.lxor_nonneg. lia. }
  split; [exact H0 |]. apply byte_bits_bound; [exact H0 |].
  intros m Hm. rewrite Z.lor_spec, Z.lxor_spec.
  rewrite (proj1 (byte_bits_bound v (proj1 Hv)) (proj2 Hv) m Hm).
  rewrite (proj1 (byte_bits_bound a (proj1 Ha)) (proj2 Ha) m Hm).
  rewrite (proj1 (byte_bits_bound b (proj1 Hb)) (proj2 Hb) m Hm).
  reflexivity.
Qed.

Lemma ConstantTimeByteEq_zero (v : Z) :
  0 <= v < 256 -> (ConstantTimeByteEq v 0 = 1 <-> v = 0).
Proof.
  intros Hv. unfold ConstantTimeByteEq. rewrite Z.lxor_0_r.
  rewrite Z.shiftr_div_pow2 by lia.
  change (2 ^ 32) with 4294967296. change (2 ^ 31) with 2147483648.
  split.
  - intros H. destruct (Z.eq_dec v 0) as [|Hne]; [assumption | exfalso].
    rewrite Z.mod_small in H by lia. rewrite Z.div_small in H by lia. discriminate.
  - intros ->. reflexivity.
Qed.

(** The or of the xors is zero exactly when it started at zero and the two
    sequences agree. *)
Lemma xor_fold_zero (x y : bytes) (v : Z) :
  length x = length y -> 0 <= v < 256 ->
  let r := fold_left (fun v p => Z.lor v (Z.lxor (byte_to_Z p.1) (byte_to_Z p.2)))
             (zip x y) v in
  0 <= r < 256 /\ (r = 0 <-> v = 0 /\ x = y).
Proof.
  revert y v. induction x as [| a x IH]; intros [| b y] v Hlen Hv; simpl in *;
    try discriminate.
  - split; [exact Hv | tauto].
  - pose proof (byte_to_Z_range a) as Ha. pose proof (byte_to_Z_range b) as Hb.
    assert (Hlen' : length x = length y) by lia.
    destruct (IH y _ Hlen' (lor_lxor_byte v _ _ Hv Ha Hb)) as [Hr Hiff].
    split; [exact Hr |]. rewrite Hiff, Z.lor_eq_0_iff. split.
    + intros [[Hv0 Hx] ->]. apply Z.lxor_eq in Hx. apply byte_to_Z_inj in Hx.
      subst. auto.
    + intros [-> Heq]. injection Heq as -> ->. rewrite Z.lxor_nilpotent. auto.
Qed.

(** [ConstantTimeCompare] returns 1 exactly on equal byte sequences. *)
Lemma ConstantTimeCompare_eq (x y : bytes) : ConstantTimeCompare x y = 1 <-> x = y.
Proof.
  unfold ConstantTimeCompare, len.
  destruct (Z.eqb_spec (Z.of_nat (length x)) (Z.of_nat (length y))) as [Hlen | Hlen]; simpl.
  - assert (Hl : length x = length y) by lia.
    destruct (xor_fold_zero x y 0 Hl) as [Hr Hiff]; [lia |].
    rewrite (ConstantTimeByteEq_zero _ Hr), Hiff. tauto.
  - split; [discriminate |]. intros ->. contradiction.
Qed.

Lemma ConstantTimeCompare_refl (x : bytes) : (ConstantTimeCompare x x =? 1) = true.
Proof. apply Z.eqb_eq. apply ConstantTimeCompare_eq. reflexivity. Qed.

(** ** [New] *)

Lemma size_check (bits : Z) :
  negb (Z.rem bits 8 =? 0) || (Z.quot bits 8 <? 1) = false <-> size_ok bits.
Proof.
  unfold size_ok. rewrite <- (Z.rem_divide bits 8) by lia.
  rewrite orb_false_iff, negb_false_iff, Z.eqb_eq, Z.ltb_ge.
  split; intros [H1 H2]; split; try assumption; Z.quot_rem_to_equations; lia.
Qed.

Lemma size_ok_quot (bits : Z) : size_ok bits -> Z.quot bits 8 = bits / 8 /\ 1 <= bits / 8.
Proof.
  intros [Hpos [k Hk]]. subst bits. rewrite Z.quot_mul, Z.div_mul by lia. lia.
Qed.


Lemma New_inv (iterCtn saltBits keyBits key : Z) (h : hasher) :
  New iterCtn saltBits keyBits key = (Some h, None) ->
  1 <= iterCtn /\ size_ok saltBits /\ size_ok keyBits /\
  h = {| iterCnt := iterCtn; saltSize := saltBits / 8; keySize := keyBits / 8;
         hashKey := key |}.
Proof.
  unfold New. destruct (Z.ltb_spec iterCtn 1); [discriminate |].
  destruct (negb (Z.rem saltBits 8 =? 0) || (Z.quot saltBits 8 <? 1)) eqn:Es;
    [discriminate |].
  destruct (negb (Z.rem keyBits 8 =? 0) || (Z.quot keyBits 8 <? 1)) eqn:Ek;
    [discriminate |].
  apply size_check in Es. apply size_check in Ek.
  destruct (size_ok_quot _ Es) as [-> _]. destruct (size_ok_quot _ Ek) as [-> _].
  intros [= <-]. auto.
Qed.

(** A hasher that [New] returned has sizes of at least one byte. *)
Lemma New_sizes (iterCtn saltBits keyBits key : Z) (h : hasher) :
  New iterCtn saltBits keyBits key = (Some h, None) ->
  1 <= iterCnt h /\ 1 <= saltSize h /\ 1 <= keySize h /\ hashKey h = key.
Proof.
  intros H. apply New_inv in H as (Hi & Hs & Hk & ->). simpl.
  apply size_ok_quot in Hs. apply size_ok_quot in Hk. lia.
Qed.

(** ** Encoded hashes *)

Lemma encoded_len (key iter : Z) (salt subKey : bytes) :
  len (encoded key iter salt subKey) = 13 + len salt + len subKey.
Proof. unfold len, encoded. simpl. rewrite length_app. lia. Qed.

Lemma encoded_marker (key iter : Z) (salt subKey : bytes) :
  encoded key iter salt subKey !! 0%nat = Some formatMarker.
Proof. reflexivity. Qed.

Lemma encoded_key (key iter : Z) (salt subKey : bytes) :
  field (encoded key iter salt subKey) 1 = key mod 2 ^ 32.
Proof. rewrite <- be_value_be32. reflexivity. Qed.

Lemma encoded_iter (key iter : Z) (salt subKey : bytes) :
  field (encoded key iter salt subKey) 5 = iter mod 2 ^ 32.
Proof. rewrite <- be_value_be32. reflexivity. Qed.

Lemma encoded_saltLen (key iter : Z) (salt subKey : bytes) :
  field (encoded key iter salt subKey) 9 = len salt mod 2 ^ 32.
Proof. rewrite <- be_value_be32. reflexivity. Qed.

Lemma encoded_body (key iter : Z) (salt subKey : bytes) :
  drop 13 (encoded key iter salt subKey) = salt ++ subKey.
Proof. reflexivity. Qed.

Lemma digest_of_small (key : Z) (d : digest) :
  digest_of key = Some d -> key mod 2 ^ 32 = key.
Proof.
  intros H. assert (Hk : is_Some (digest_of key)) by (rewrite H; eauto).
  apply digest_of_known in Hk as [-> | ->]; reflexivity.
Qed.

(** A closed goal about the model, settled by running it. *)
Ltac run_model := vm_compute; first [reflexivity | discriminate].

(** The verdict on any hash is one of four cases. *)
Ltac verify_cases K h pwd hash :=
  let Hshort := fresh "Hshort" in
  let Hlong := fresh "Hlong" in
  let m := fresh "m" in
  let Hm := fresh "Hm" in
  let Hne := fresh "Hne" in
  let d := fresh "d" in
  let Hd := fresh "Hd" in
  destruct (Z.lt_ge_cases (len (elems hash)) 13) as [Hshort | Hlong];
  [ rewrite (hasher_Verify_short K h pwd hash Hshort)
  | destruct (elems hash !! 0%nat) as [m |] eqn:Hm;
    [ destruct (Byte.byte_eq_dec m formatMarker) as [-> | Hne];
      [ destruct (digest_of (field (elems hash) 1)) as [d |] eqn:Hd;
        [ rewrite (hasher_Verify_long K h pwd hash d Hlong Hm Hd)
        | rewrite (hasher_Verify_unknown K h pwd hash Hlong Hd) ]
      | rewrite (hasher_Verify_marker K h pwd hash m Hm Hne) ]
    | apply lookup_ge_None_1 in Hm; unfold len in Hlong; lia ] ].

(** [Verify] never leaves by a panic. *)
Lemma hasher_Verify_returns (K : Pbkdf2) (h : hasher) (pwd : bytes) (hash : slice) :
  exists b, result (hasher_Verify K h pwd hash) = Ret b.
Proof. verify_cases K h pwd hash; simpl; eauto. Qed.

(** The salt floor. *)
Lemma hasher_Verify_small_salt (K : Pbkdf2) (h : hasher) (pwd : bytes) (hash : slice) :
  field (elems hash) 9 < saltSize h -> result (hasher_Verify K h pwd hash) = Ret false.
Proof.
  intros Hlt. verify_cases K h pwd hash; try reflexivity. simpl.
  destruct (Z.ltb_spec (field (elems hash) 9) (saltSize h)); [reflexivity | lia].
Qed.

(** The key floor. *)
Lemma hasher_Verify_small_key (K : Pbkdf2) (h : hasher) (pwd : bytes) (hash : slice) :
  len (elems hash) - 13 - field (elems hash) 9 < keySize h ->
  result (hasher_Verify K h pwd hash) = Ret false.
Proof.
  intros Hlt. verify_cases K h pwd hash; try reflexivity. simpl.
  destruct (_ <? saltSize h); [reflexivity |].
  destruct (cap hash <? _); [reflexivity |].
  destruct (Z.ltb_spec (len (elems hash) - 13 - field (elems hash) 9) (keySize h));
    [reflexivity | lia].
Qed.

(** A hash that ends inside its salt: whatever its capacity, it is refused. *)
Lemma hasher_Verify_truncated (K : Pbkdf2) (h : hasher) (pwd : bytes) (hash : slice) :
  len (elems hash) < 13 + field (elems hash) 9 ->
  result (hasher_Verify K h pwd hash) = Ret false.
Proof.
  intros Hlt. verify_cases K h pwd hash; try reflexivity. simpl.
  destruct (_ <? saltSize h); [reflexivity |].
  destruct (cap hash <? _); [reflexivity |].
  destruct (_ <? keySize h); [reflexivity |].
  destruct (Z.ltb_spec (len (elems hash) - 13 - field (elems hash) 9) 0);
    [reflexivity | lia].
Qed.

(** A hash whose salt and sub-key reach the floors of the verifier: the
    verdict is the comparison of the stored sub-key with the one derived from
    the stored salt, iteration count and digest, at the stored length. *)
Lemma hasher_Verify_compares (K : Pbkdf2) (h : hasher) (pwd : bytes) (hash : slice)
    (d : digest) :
  13 <= len (elems hash) ->
  elems hash !! 0%nat = Some formatMarker ->
  digest_of (field (elems hash) 1) = Some d ->
  let saltLen := field (elems hash) 9 in
  let subKeyLen := len (elems hash) - 13 - saltLen in
  saltSize h <= saltLen -> 0 <= subKeyLen -> keySize h <= subKeyLen ->
  hasher_Verify K h pwd hash =
  Run [(saltLen, saltSize h)]
    (Ret (ConstantTimeCompare
            (derive K pwd (salt_of (elems hash) saltLen) (field (elems hash) 5) subKeyLen d)
            (subKey_of (elems hash) saltLen) =? 1)).
Proof.
  intros Hlen Hm Hd saltLen subKeyLen Hs Hk0 Hk.
  assert (Hsalt : 0 <= saltLen < 2 ^ 32) by (apply field_range; unfold len in Hlen; lia).
  rewrite (hasher_Verify_long K h pwd hash d Hlen Hm Hd).
  fold saltLen. fold subKeyLen.
  destruct (Z.ltb_spec saltLen (saltSize h)); [lia |].
  destruct (Z.ltb_spec (cap hash) (13 + saltLen)); [unfold cap, subKeyLen, len in *; lia |].
  destruct (Z.ltb_spec subKeyLen (keySize h)); [lia |].
  destruct (Z.ltb_spec subKeyLen 0); [lia |].
  unfold salt_of, subKey_of.
  rewrite drop_app_le by (unfold subKeyLen, len in *; lia).
  rewrite take_app_le by (rewrite length_drop; unfold subKeyLen, len in *; lia).
  replace (Z.to_nat (13 + saltLen)) with (13 + Z.to_nat saltLen)%nat by lia.
  reflexivity.
Qed.

(** ** [Verify] after [Hash] *)

(** The verdict on an encoded hash whose salt is shorter than [2^32] bytes
    and whose salt and sub-key reach the verifier's floors: the stored
    sub-key is compared with the one derived from the stored salt and the
    iteration count modulo [2^32]. *)
Lemma hasher_Verify_encoded_compares (K : Pbkdf2) (h : hasher) (pwd salt subKey sp : bytes)
    (key iter : Z) (d : digest) :
  digest_of key = Some d -> len salt < 2 ^ 32 ->
  saltSize h <= len salt -> keySize h <= len subKey ->
  hasher_Verify K h pwd (Slice (encoded key iter salt subKey) sp)
  = Run [(len salt, saltSize h)]
      (Ret (ConstantTimeCompare
              (derive K pwd salt (iter mod 2 ^ 32) (len subKey) d) subKey =? 1)).
Proof.
  intros Hd Hs Hfloor Hk.
  assert (Hsl : len salt mod 2 ^ 32 = len salt) by (apply Z.mod_small; unfold len in *; lia).
  rewrite (hasher_Verify_compares K h pwd _ d); simpl elems;
    rewrite ?encoded_len, ?encoded_key, ?encoded_iter, ?encoded_saltLen, ?Hsl,
      ?(digest_of_small _ _ Hd); try first [exact Hd | reflexivity | unfold len in *; lia].
  replace (13 + len salt + len subKey - 13 - len salt) with (len subKey) by lia.
  unfold salt_of, subKey_of. rewrite encoded_body.
  replace (13 + Z.to_nat (len salt))%nat with (13 + length salt)%nat by (unfold len; lia).
  rewrite <- drop_drop, encoded_body.
  replace (Z.to_nat (len salt)) with (length salt) by (unfold len; lia).
  rewrite take_app_length, drop_app_length. reflexivity.
Qed.

(** A verifier accepts the encoded hash of a sub-key derived for the same
    password, when the header fields hold the iteration count and the salt
    length in full and the salt and the sub-key reach the verifier's
    floors. *)
Lemma hasher_Verify_encoded (K : Pbkdf2) (h : hasher) (pwd salt sp : bytes)
    (key iter keyLen : Z) (d : digest) :
  digest_of key = Some d -> 0 <= iter < 2 ^ 32 -> len salt < 2 ^ 32 ->
  saltSize h <= len salt -> 0 <= keyLen -> keySize h <= keyLen ->
  hasher_Verify K h pwd (Slice (encoded key iter salt (derive K pwd salt iter keyLen d)) sp)
  = Run [(len salt, saltSize h)] (Ret true).
Proof.
  intros Hd Hi Hs Hfloor Hk0 Hk.
  pose proof (derive_length K pwd salt iter keyLen d Hk0) as Hlen.
  rewrite (hasher_Verify_encoded_compares K h pwd salt _ sp key iter d)
    by (try rewrite Hlen; assumption).
  rewrite Hlen, Z.mod_small by lia. rewrite ConstantTimeCompare_refl. reflexivity.
Qed.

(** [Hash] on a hasher that [New] returned with a known hash key. *)
Lemma hasher_Hash_New (K : Pbkdf2) (iterCtn saltBits keyBits key : Z) (h : hasher)
    (src : entropy) (pwd : bytes) :
  New iterCtn saltBits keyBits key = (Some h, None) ->
  key = HashSHA256 \/ key = HashSHA512 ->
  exists d, digest_of (hashKey h) = Some d /\
    hasher_Hash K h src pwd =
    ret (encoded (hashKey h) (iterCnt h) (salt_read src (saltSize h))
           (derive K pwd (salt_read src (saltSize h)) (iterCnt h) (keySize h) d)).
Proof.
  intros HN Hkey. destruct (New_sizes _ _ _ _ _ HN) as (Hi & Hs & Hk & Hhk).
  destruct (proj2 (digest_of_known (hashKey h))) as [d Hd]; [rewrite Hhk; exact Hkey |].
  exists d. split; [exact Hd |]. apply hasher_Hash_ok; [lia | lia | exact Hd].
Qed.

(** C1 (as amended).  For every password, every random source and every
    hasher that [New] returned with hash key SHA-256 or SHA-512, whose
    iteration count and salt size in bytes are below [2^32] and whose
    allocations stay below the ceiling: [Hash] returns an encoded hash, and
    [Verify] of the same password against it returns [true]. *)
Theorem Verify_Hash_roundtrip (K : Pbkdf2) (iterCtn saltBits keyBits key : Z)
    (h : hasher) (src : entropy) (pwd : bytes) :
  New iterCtn saltBits keyBits key = (Some h, None) ->
  key = HashSHA256 \/ key = HashSHA512 ->
  iterCnt h < 2 ^ 32 -> saltSize h < 2 ^ 32 -> allocatable h ->
  exists out,
    result (hasher_Hash K h src pwd) = Ret out /\
    result (hasher_Verify K h pwd (full out)) = Ret true.
Proof.
  intros HN Hkey Hi32 Hs32 _.
  destruct (New_sizes _ _ _ _ _ HN) as (Hi & Hs & Hk & Hhk).
  destruct (hasher_Hash_New K _ _ _ _ h src pwd HN Hkey) as (d & Hd & ->).
  eexists. split; [reflexivity |].
  unfold full. rewrite (hasher_Verify_encoded K h pwd _ [] _ _ (keySize h) d);
    rewrite ?salt_read_len; try first [exact Hd | reflexivity | lia].
Qed.

Lemma Verify_Hash_roundtrip_witness :
  New 1000 128 256 1 = (Some sample_hasher, None) /\
  allocatable sample_hasher /\
  exists out,
    result (hasher_Hash sample_pbkdf2 sample_hasher sample_entropy sample_password) = Ret out /\
    result (hasher_Verify sample_pbkdf2 sample_hasher sample_password (full out)) = Ret true.
Proof.
  split; [reflexivity |]. split; [run_model |].
  apply (Verify_Hash_roundtrip sample_pbkdf2 1000 128 256 1);
    [reflexivity | left; reflexivity | reflexivity | reflexivity | run_model].
Defined.

(** A salt of [2^32] bytes or more: the header holds its length modulo
    [2^32], below the hasher's own floor, and [Verify] refuses the hash
    that the same hasher made. *)
Lemma hasher_Verify_wide_salt (K : Pbkdf2) (h : hasher) (src : entropy) (pwd : bytes)
    (d : digest) :
  digest_of (hashKey h) = Some d -> 0 <= keySize h -> 2 ^ 32 <= saltSize h ->
  exists out,
    result (hasher_Hash K h src pwd) = Ret out /\
    result (hasher_Verify K h pwd (full out)) = Ret false.
Proof.
  intros Hd Hk Hs. rewrite (hasher_Hash_ok K h src pwd d) by (try lia; exact Hd).
  eexists. split; [reflexivity |].
  apply hasher_Verify_small_salt. unfold full. simpl elems.
  rewrite encoded_saltLen, salt_read_len by lia.
  pose proof (Z.mod_pos_bound (saltSize h) (2 ^ 32)). lia.
Qed.

(** C1 (counterexample).  [New(1, 34359738368, 8, HashSHA256)] is a valid
    configuration with a salt of [2^32] bytes; for every password and random
    source, [Verify] returns [false] on the hash that this hasher made of
    the same password. *)
Lemma roundtrip_fails_on_wide_salt :
  New 1 34359738368 8 HashSHA256 = (Some wide_salt_hasher, None) /\
  forall (K : Pbkdf2) (src : entropy) (pwd : bytes),
  exists out,
    result (hasher_Hash K wide_salt_hasher src pwd) = Ret out /\
    result (hasher_Verify K wide_salt_hasher pwd (full out)) = Ret false.
Proof.
  split; [reflexivity |]. intros K src pwd.
  apply (hasher_Verify_wide_salt K wide_salt_hasher src pwd sha256_New);
    [reflexivity | discriminate | discriminate].
Qed.

(** ** Malformed input *)

(** C2.  For every hasher, password and hash, [Verify] returns a boolean and
    never leaves by a panic; it returns [false] on a hash shorter than the
    13-byte header, on a hash whose first byte is not the format marker, on a
    hash that ends inside the salt its header announces, and on a hash whose
    digest selector is unknown. *)
Theorem Verify_never_panics (K : Pbkdf2) (h : hasher) (pwd : bytes) (hash : slice) :
  (exists b, result (hasher_Verify K h pwd hash) = Ret b) /\
  (len (elems hash) < 13 -> result (hasher_Verify K h pwd hash) = Ret false) /\
  (forall m, elems hash !! 0%nat = Some m -> m <> formatMarker ->
     result (hasher_Verify K h pwd hash) = Ret false) /\
  (len (elems hash) < 13 + field (elems hash) 9 ->
     result (hasher_Verify K h pwd hash) = Ret false) /\
  (digest_of (field (elems hash) 1) = None ->
     result (hasher_Verify K h pwd hash) = Ret false).
Proof.
  split; [apply hasher_Verify_returns |].
  split; [intros Hlt; rewrite hasher_Verify_short by exact Hlt; reflexivity |].
  split; [intros m Hm Hne; rewrite (hasher_Verify_marker K h pwd hash m Hm Hne); reflexivity |].
  split; [apply hasher_Verify_truncated |].
  intros Hd. verify_cases K h pwd hash; try reflexivity. congruence.
Qed.

Lemma Verify_never_panics_witness :
  result (hasher_Verify sample_pbkdf2 sample_hasher sample_password (full (take 12 sample_hash)))
    = Ret false /\
  result (hasher_Verify sample_pbkdf2 sample_hasher sample_password
            (Slice (take 12 sample_hash) (drop 12 sample_hash))) = Ret false /\
  result (hasher_Verify sample_pbkdf2 sample_hasher sample_password
            (full (<[0%nat := "#"%byte]> sample_hash))) = Ret false.
Proof.
  split; [| split].
  - apply (proj1 (proj2 (Verify_never_panics sample_pbkdf2 sample_hasher sample_password
             (full (take 12 sample_hash))))). reflexivity.
  - apply (proj1 (proj2 (Verify_never_panics sample_pbkdf2 sample_hasher sample_password
             (Slice (take 12 sample_hash) (drop 12 sample_hash))))). reflexivity.
  - apply (proj1 (proj2 (proj2 (Verify_never_panics sample_pbkdf2 sample_hasher
             sample_password (full (<[0%nat := "#"%byte]> sample_hash))))) "#"%byte);
      [reflexivity | discriminate].
Defined.

(** C7.  A hash whose digest selector, the four bytes at offset 1, is
    neither 1 nor 2: [alg] panics on the selector, and [Verify] returns
    [false]. *)
Theorem Verify_unsupported_digest (K : Pbkdf2) (h : hasher) (pwd : bytes) (hash : slice) :
  5 <= len (elems hash) ->
  field (elems hash) 1 <> HashSHA256 -> field (elems hash) 1 <> HashSHA512 ->
  result (alg (field (elems hash) 1)) = Panic (UnsupportedHashKey (field (elems hash) 1)) /\
  result (hasher_Verify K h pwd hash) = Ret false.
Proof.
  intros _ H1 H2.
  assert (Hd : digest_of (field (elems hash) 1) = None).
  { destruct (digest_of (field (elems hash) 1)) as [d |] eqn:E; [| reflexivity].
    assert (Hk : is_Some (digest_of (field (elems hash) 1))) by (rewrite E; eauto).
    apply digest_of_known in Hk. tauto. }
  split; [rewrite (alg_unknown _ Hd); reflexivity |].
  verify_cases K h pwd hash; try reflexivity. congruence.
Qed.

Lemma Verify_unsupported_digest_witness :
  field unknown_digest_hash 1 = 237 /\
  result (alg 237) = Panic (UnsupportedHashKey 237) /\
  result (hasher_Verify sample_pbkdf2 sample_hasher sample_password (full unknown_digest_hash))
    = Ret false.
Proof.
  split; [reflexivity |].
  apply (Verify_unsupported_digest sample_pbkdf2 sample_hasher sample_password
           (full unknown_digest_hash)); run_model.
Defined.

(** ** The verdict on a well-formed hash *)

(** C4.  On a hash of at least 13 bytes that starts with the format marker,
    names a known digest, holds the salt its header announces, and whose
    salt and sub-key reach the floors of the hasher: the sub-key that
    [Verify] derives has the length of the stored sub-key (the bytes after
    the salt, whatever the hasher's key size), it is derived from the stored
    salt, the stored iteration count and the digest of the stored selector,
    and [Verify] returns [true] exactly when it equals the stored sub-key. *)
Theorem Verify_rederives_stored (K : Pbkdf2) (h : hasher) (pwd : bytes) (hash : slice)
    (d : digest) :
  13 <= len (elems hash) ->
  elems hash !! 0%nat = Some formatMarker ->
  digest_of (field (elems hash) 1) = Some d ->
  saltSize h <= field (elems hash) 9 ->
  13 + field (elems hash) 9 <= len (elems hash) ->
  keySize h <= len (elems hash) - 13 - field (elems hash) 9 ->
  let saltLen := field (elems hash) 9 in
  let stored := subKey_of (elems hash) saltLen in
  let actual :=
    derive K pwd (salt_of (elems hash) saltLen) (field (elems hash) 5) (len stored) d in
  len stored = len (elems hash) - 13 - saltLen /\
  len actual = len stored /\
  exists b, result (hasher_Verify K h pwd hash) = Ret b /\ (b = true <-> actual = stored).
Proof.
  intros Hlen Hm Hd Hs Hfit Hk saltLen stored actual.
  assert (Hsalt : 0 <= saltLen < 2 ^ 32) by (apply field_range; unfold len in Hlen; lia).
  assert (Hstored : len stored = len (elems hash) - 13 - saltLen).
  { unfold stored, subKey_of, len in *. rewrite length_drop. fold saltLen in Hfit. lia. }
  split; [exact Hstored |].
  split; [apply derive_length; rewrite Hstored; fold saltLen in Hfit; lia |].
  eexists. split.
  - rewrite (hasher_Verify_compares K h pwd hash d Hlen Hm Hd); fold saltLen; try lia.
    rewrite <- Hstored. reflexivity.
  - fold stored. fold actual. rewrite Z.eqb_eq. apply ConstantTimeCompare_eq.
Qed.

Lemma Verify_rederives_stored_witness :
  let hash := full sample_hash in
  (13 <= len (elems hash) /\ field (elems hash) 1 = 1 /\ field (elems hash) 5 = 1000 /\
   field (elems hash) 9 = 16 /\ len (subKey_of (elems hash) 16) = 32) /\
  exists b, result (hasher_Verify sample_pbkdf2 sample_hasher sample_password hash) = Ret b /\
    (b = true <->
     derive sample_pbkdf2 sample_password (salt_of (elems hash) 16) 1000 32 sha256_New
     = subKey_of (elems hash) 16).
Proof.
  split; [repeat split; run_model |].
  apply (Verify_rederives_stored sample_pbkdf2 sample_hasher sample_password
           (full sample_hash) sha256_New); run_model.
Defined.

(** ** The floors on salt and key size *)

(** C5.  For every hasher and hash: [Verify] returns [false] when the salt
    length in the header is below the hasher's salt size, and when the
    length left for the sub-key (total length minus 13 minus the salt
    length) is below the hasher's key size; a well-formed hash whose salt
    length and sub-key length are at least the hasher's sizes passes both
    tests, the verdict being the comparison of the stored sub-key with the
    derived one. *)
Theorem Verify_size_floors (K : Pbkdf2) (h : hasher) (pwd : bytes) (hash : slice) :
  let saltLen := field (elems hash) 9 in
  let subKeyLen := len (elems hash) - 13 - saltLen in
  (saltLen < saltSize h -> result (hasher_Verify K h pwd hash) = Ret false) /\
  (subKeyLen < keySize h -> result (hasher_Verify K h pwd hash) = Ret false) /\
  (forall d, 13 <= len (elems hash) -> elems hash !! 0%nat = Some formatMarker ->
     digest_of (field (elems hash) 1) = Some d ->
     saltSize h <= saltLen -> keySize h <= subKeyLen -> 0 <= subKeyLen ->
     result (hasher_Verify K h pwd hash) =
     Ret (ConstantTimeCompare
            (derive K pwd (salt_of (elems hash) saltLen) (field (elems hash) 5) subKeyLen d)
            (subKey_of (elems hash) saltLen) =? 1)).
Proof.
  intros saltLen subKeyLen.
  split; [apply hasher_Verify_small_salt |].
  split; [apply hasher_Verify_small_key |].
  intros d Hlen Hm Hd Hs Hk Hk0.
  rewrite (hasher_Verify_compares K h pwd hash d Hlen Hm Hd) by assumption.
  reflexivity.
Qed.

(** The sample hash has a 16-byte salt and a 32-byte sub-key: a hasher that
    asks for a 32-byte salt refuses it, one that asks for a 64-byte key
    refuses it, and one that asks for 8 and 16 bytes accepts it. *)
Lemma Verify_size_floors_witness :
  let stricter_salt := {| iterCnt := 1000; saltSize := 32; keySize := 32; hashKey := 1 |} in
  let stricter_key := {| iterCnt := 1000; saltSize := 16; keySize := 64; hashKey := 1 |} in
  let laxer := {| iterCnt := 5; saltSize := 8; keySize := 16; hashKey := 2 |} in
  result (hasher_Verify sample_pbkdf2 stricter_salt sample_password (full sample_hash))
    = Ret false /\
  result (hasher_Verify sample_pbkdf2 stricter_key sample_password (full sample_hash))
    = Ret false /\
  result (hasher_Verify sample_pbkdf2 laxer sample_password (full sample_hash))
    = Ret true.
Proof.
  intros stricter_salt stricter_key laxer. split; [| split].
  - apply (proj1 (Verify_size_floors sample_pbkdf2 stricter_salt sample_password
                    (full sample_hash))). run_model.
  - apply (proj1 (proj2 (Verify_size_floors sample_pbkdf2 stricter_key sample_password
                           (full sample_hash)))). run_model.
  - rewrite (proj2 (proj2 (Verify_size_floors sample_pbkdf2 laxer sample_password
                             (full sample_hash))) sha256_New); run_model.
Defined.

(** ** Configuration errors *)

Lemma size_check_fails (bits : Z) :
  negb (Z.rem bits 8 =? 0) || (Z.quot bits 8 <? 1) = true <->
  bits <= 0 \/ ~ (8 | bits).
Proof.
  rewrite <- not_false_iff_true, size_check. unfold size_ok. split.
  - intros Hn. destruct (Z.le_gt_cases bits 0) as [Hle | Hgt]; [left; exact Hle |].
    right. intros Hdiv. apply Hn. split; [lia | exact Hdiv].
  - intros [Hle | Hnd] [Hpos Hdiv]; [lia | contradiction].
Qed.

(** C6 (as amended).  [New] checks the iteration count, then the salt size,
    then the key size, and returns the error of the first check that fails:
    the iteration-count error exactly when the iteration count is below 1;
    the salt-size error exactly when the iteration count is at least 1 and
    the salt size in bits is not positive or not a multiple of 8; the
    key-size error exactly when the first two are valid and the key size in
    bits is not positive or not a multiple of 8.  With an error the hasher
    is nil; without one, the hasher holds the iteration count, the two sizes
    divided by 8, and the hash key. *)
Theorem New_first_failed_check (iterCtn saltBits keyBits key : Z) :
  let r := New iterCtn saltBits keyBits key in
  (r.2 = Some ErrInvalidIterationCount <-> iterCtn < 1) /\
  (r.2 = Some ErrInvalidSaltSize <->
     1 <= iterCtn /\ (saltBits <= 0 \/ ~ (8 | saltBits))) /\
  (r.2 = Some ErrInvalidKeySize <->
     1 <= iterCtn /\ size_ok saltBits /\ (keyBits <= 0 \/ ~ (8 | keyBits))) /\
  (r.2 <> None -> r.1 = None) /\
  (r.2 = None ->
     r.1 = Some {| iterCnt := iterCtn; saltSize := saltBits / 8;
                   keySize := keyBits / 8; hashKey := key |}) /\
  (r.2 = None <-> 1 <= iterCtn /\ size_ok saltBits /\ size_ok keyBits).
Proof.
  unfold New.
  destruct (Z.ltb_spec iterCtn 1) as [Hi | Hi]; simpl.
  { repeat split; intros; try reflexivity; try congruence; try tauto;
      try (unfold size_ok in *; tauto); lia. }
  destruct (negb (Z.rem saltBits 8 =? 0) || (Z.quot saltBits 8 <? 1)) eqn:Es; simpl.
  { apply size_check_fails in Es.
    assert (Hno : ~ size_ok saltBits)
      by (unfold size_ok; intros [? ?]; destruct Es; [lia | tauto]).
    repeat split; intros; try reflexivity; try congruence; try tauto;
      try (unfold size_ok in *; tauto); lia. }
  apply size_check in Es.
  assert (Hok : ~ (saltBits <= 0 \/ ~ (8 | saltBits)))
    by (destruct Es; intros [? | ?]; [lia | tauto]).
  destruct (negb (Z.rem keyBits 8 =? 0) || (Z.quot keyBits 8 <? 1)) eqn:Ek; simpl.
  { apply size_check_fails in Ek.
    assert (Hno : ~ size_ok keyBits)
      by (unfold size_ok; intros [? ?]; destruct Ek; [lia | tauto]).
    repeat split; intros; try reflexivity; try congruence; try tauto;
      try (unfold size_ok in *; tauto); lia. }
  apply size_check in Ek.
  assert (Hokk : ~ (keyBits <= 0 \/ ~ (8 | keyBits)))
    by (destruct Ek; intros [? | ?]; [lia | tauto]).
  destruct (size_ok_quot _ Es) as [-> _]. destruct (size_ok_quot _ Ek) as [-> _].
  repeat split; intros; try reflexivity; try congruence; try tauto;
      try (unfold size_ok in *; tauto); lia.
Qed.

(** C6 (counterexample).  [New(0, 14, 256, HashSHA256)]: the salt size 14 is
    not a multiple of 8, and the error is the iteration-count error, not the
    salt-size error. *)
Lemma New_reports_one_error :
  ~ (8 | 14) /\
  New 0 14 256 HashSHA256 = (None, Some ErrInvalidIterationCount) /\
  (New 0 14 256 HashSHA256).2 <> Some ErrInvalidSaltSize.
Proof.
  split; [| split; [reflexivity | discriminate]].
  intros [k Hk]. lia.
Qed.

(** ** The random source *)

(** C8 (as amended).  On a hasher that [New] returned with hash key SHA-256
    or SHA-512, whose allocations stay below the ceiling, and a random
    source that delivers at least [saltSize] bytes: [rand.Read] writes
    exactly [saltSize] bytes and reports no error, and [Hash] returns the
    encoded hash whose salt is exactly those bytes and whose sub-key is
    derived from them. *)
Theorem Hash_uses_delivered_salt (K : Pbkdf2) (iterCtn saltBits keyBits key : Z)
    (h : hasher) (src : entropy) (pwd : bytes) :
  New iterCtn saltBits keyBits key = (Some h, None) ->
  key = HashSHA256 \/ key = HashSHA512 ->
  allocatable h ->
  saltSize h <= len src ->
  let salt := take (Z.to_nat (saltSize h)) src in
  rand_Read src (replicate (Z.to_nat (saltSize h)) x00) = (salt, (saltSize h, None)) /\
  len salt = saltSize h /\
  exists d, digest_of key = Some d /\
    hasher_Hash K h src pwd =
    ret (encoded key (iterCnt h) salt (derive K pwd salt (iterCnt h) (keySize h) d)).
Proof.
  intros HN Hkey _ Hsrc salt.
  destruct (New_sizes _ _ _ _ _ HN) as (Hi & Hs & Hk & Hhk).
  assert (Hread : rand_Read src (replicate (Z.to_nat (saltSize h)) x00)
                  = (salt, (saltSize h, None))).
  { rewrite rand_Read_enough by (rewrite length_replicate; unfold len in Hsrc; lia).
    unfold len. rewrite length_replicate. unfold salt. repeat f_equal. lia. }
  split; [exact Hread |].
  split; [unfold salt, len in *; rewrite length_take; lia |].
  destruct (hasher_Hash_New K _ _ _ _ h src pwd HN Hkey) as (d & Hd & ->).
  exists d. rewrite <- Hhk. split; [exact Hd |].
  unfold salt_read. rewrite Hread. reflexivity.
Qed.

Lemma Hash_uses_delivered_salt_witness :
  New 1000 128 256 1 = (Some sample_hasher, None) /\
  allocatable sample_hasher /\
  rand_Read sample_entropy (replicate 16 x00) = (sample_entropy, (16, None)) /\
  hasher_Hash sample_pbkdf2 sample_hasher sample_entropy sample_password = ret sample_hash.
Proof.
  split; [reflexivity |]. split; [run_model |].
  destruct (Hash_uses_delivered_salt sample_pbkdf2 1000 128 256 1 sample_hasher
              sample_entropy sample_password) as (Hread & _ & d & Hd & HH);
    [reflexivity | left; reflexivity | run_model | run_model |].
  split; [exact Hread |]. rewrite HH. injection Hd as <-. reflexivity.
Defined.

(** C8 (counterexample).  A random source that fails before it delivers a
    byte: [rand.Read] writes nothing and reports an error, and [Hash] on the
    default configuration returns, as for any other call, an encoded hash;
    its salt is the sixteen zero bytes of the untouched buffer. *)
Lemma Hash_proceeds_without_entropy :
  rand_Read [] (replicate 16 x00) = (replicate 16 x00, (0, Some ErrShortRead)) /\
  forall (K : Pbkdf2) (pwd : bytes),
    hasher_Hash K sample_hasher [] pwd =
    ret (encoded 1 1000 (replicate 16 x00)
           (derive K pwd (replicate 16 x00) 1000 32 sha256_New)).
Proof.
  split; [reflexivity |]. intros K pwd.
  rewrite (hasher_Hash_ok K sample_hasher [] pwd sha256_New); [reflexivity | | |];
    run_model.
Qed.

(** ** The layout of the encoded hash *)

(** C3 (as amended).  On a hasher that [New] returned with hash key SHA-256
    or SHA-512 and whose allocations stay below the ceiling, [Hash] returns
    a buffer of exactly [13 + saltSize + keySize] bytes: the format marker,
    then at offsets 1, 5 and 9 the four-byte big-endian numerals of the low
    32 bits of the hash key, of the iteration count and of the salt length,
    then the salt, then the sub-key.  The salt is the [saltSize] bytes that
    [rand.Read] left in its buffer (the first [saltSize] bytes of the random
    source when it delivers that many), and the sub-key is what PBKDF2
    derives from the password, that salt, the iteration count and the digest
    of the hash key at length [keySize].  The fields decode to the values
    modulo [2^32], hence to the iteration count and the salt length
    themselves when these are below [2^32].  On the configuration (1000, 128,
    256, SHA-256) the buffer has 61 bytes and its header decodes to
    iteration count 1000 and salt length 16. *)
Theorem Hash_layout :
  (forall (K : Pbkdf2) (iterCtn saltBits keyBits key : Z) (h : hasher)
          (src : entropy) (pwd : bytes),
     New iterCtn saltBits keyBits key = (Some h, None) ->
     key = HashSHA256 \/ key = HashSHA512 ->
     allocatable h ->
     exists d out,
       digest_of key = Some d /\
       result (hasher_Hash K h src pwd) = Ret out /\
       let salt := (rand_Read src (replicate (Z.to_nat (saltSize h)) x00)).1 in
       let subKey := derive K pwd salt (iterCnt h) (keySize h) d in
       out = formatMarker :: be32 (hashKey h) ++ be32 (iterCnt h)
               ++ be32 (saltSize h) ++ salt ++ subKey /\
       (saltSize h <= len src -> salt = take (Z.to_nat (saltSize h)) src) /\
       len salt = saltSize h /\ len subKey = keySize h /\
       salt_of out (saltSize h) = salt /\ subKey_of out (saltSize h) = subKey /\
       len out = 13 + saltSize h + keySize h /\
       out !! 0%nat = Some formatMarker /\
       field out 1 = hashKey h /\
       field out 5 = iterCnt h mod 2 ^ 32 /\
       field out 9 = saltSize h mod 2 ^ 32 /\
       (iterCnt h < 2 ^ 32 -> field out 5 = iterCnt h) /\
       (saltSize h < 2 ^ 32 -> field out 9 = saltSize h)) /\
  (forall (K : Pbkdf2) (src : entropy) (pwd : bytes),
     exists h out,
       New 1000 128 256 HashSHA256 = (Some h, None) /\
       result (hasher_Hash K h src pwd) = Ret out /\
       len out = 61 /\ out !! 0%nat = Some formatMarker /\
       field out 5 = 1000 /\ field out 9 = 16).
Proof.
  split.
  - intros K iterCtn saltBits keyBits key h src pwd HN Hkey _.
    destruct (New_sizes _ _ _ _ _ HN) as (Hi & Hs & Hk & Hhk).
    destruct (hasher_Hash_New K _ _ _ _ h src pwd HN Hkey) as (d & Hd & HH).
    pose proof (salt_read_len src (saltSize h)) as Hsl.
    pose proof (derive_length K pwd (salt_read src (saltSize h)) (iterCnt h) (keySize h) d)
      as Hkl.
    exists d. eexists. split; [rewrite <- Hhk; exact Hd |].
    rewrite HH. split; [reflexivity |].
    fold (salt_read src (saltSize h)). cbv zeta.
    set (salt := salt_read src (saltSize h)) in *.
    set (subKey := derive K pwd salt (iterCnt h) (keySize h) d) in *.
    assert (Hnat : Z.to_nat (saltSize h) = length salt) by (unfold len in Hsl; lia).
    split; [unfold encoded; rewrite Hsl by lia; reflexivity |].
    split.
    { intros Hsrc. unfold salt, salt_read.
      rewrite rand_Read_enough by (rewrite length_replicate; unfold len in Hsrc; lia).
      simpl. rewrite length_replicate. reflexivity. }
    split; [apply Hsl; lia |]. split; [apply Hkl; lia |].
    split; [unfold salt_of; rewrite encoded_body, Hnat; apply take_app_length |].
    split.
    { unfold subKey_of. rewrite <- drop_drop, encoded_body, Hnat.
      apply drop_app_length. }
    split; [rewrite encoded_len, Hsl, Hkl by lia; reflexivity |].
    split; [reflexivity |].
    split; [rewrite encoded_key; apply (digest_of_small _ d Hd) |].
    split; [apply encoded_iter |].
    split; [rewrite encoded_saltLen, Hsl by lia; reflexivity |].
    split.
    + intros Hlt. rewrite encoded_iter. apply Z.mod_small. lia.
    + intros Hlt. rewrite encoded_saltLen, Hsl by lia. apply Z.mod_small. lia.
  - intros K src pwd.
    pose proof (salt_read_len src 16) as Hsl.
    pose proof (derive_length K pwd (salt_read src 16) 1000 32 sha256_New) as Hkl.
    exists sample_hasher. eexists. split; [reflexivity |].
    rewrite (hasher_Hash_ok K sample_hasher src pwd sha256_New) by run_model.
    split; [reflexivity |]. simpl saltSize. simpl keySize. simpl iterCnt. simpl hashKey.
    split; [rewrite encoded_len, Hsl, Hkl by lia; reflexivity |].
    split; [reflexivity |].
    split; [rewrite encoded_iter; reflexivity |].
    rewrite encoded_saltLen, Hsl by lia. reflexivity.
Qed.

Lemma Hash_layout_witness :
  New 1000 128 256 1 = (Some sample_hasher, None) /\
  allocatable sample_hasher /\
  exists out,
    result (hasher_Hash sample_pbkdf2 sample_hasher sample_entropy sample_password) = Ret out /\
    out = formatMarker :: be32 1 ++ be32 1000 ++ be32 16 ++ sample_entropy
            ++ derive sample_pbkdf2 sample_password sample_entropy 1000 32 sha256_New /\
    len out = 61.
Proof.
  split; [reflexivity |]. split; [run_model |].
  destruct (proj1 Hash_layout sample_pbkdf2 1000 128 256 1 sample_hasher sample_entropy
              sample_password) as (d & out & Hd & HH & Hout & _ & _ & _ & _ & _ & Hlen & _);
    [reflexivity | left; reflexivity | run_model |].
  exists out. split; [exact HH |]. split; [| exact Hlen].
  injection Hd as <-. exact Hout.
Defined.

(** C3 (counterexample).  [New(4294967297, 128, 256, HashSHA256)] is a valid
    configuration of [2^32 + 1] iterations; in every hash it makes, the
    field at offset 5 decodes to 1. *)
Lemma Hash_header_wraps_iteration_count :
  New 4294967297 128 256 HashSHA256 = (Some wide_iter_hasher, None) /\
  iterCnt wide_iter_hasher = 4294967297 /\
  forall (K : Pbkdf2) (src : entropy) (pwd : bytes),
  exists out,
    result (hasher_Hash K wide_iter_hasher src pwd) = Ret out /\ field out 5 = 1.
Proof.
  split; [reflexivity |]. split; [reflexivity |]. intros K src pwd.
  rewrite (hasher_Hash_ok K wide_iter_hasher src pwd sha256_New); [| run_model ..].
  eexists. split; [reflexivity |]. rewrite encoded_iter. reflexivity.
Qed.

(** ** The default hasher *)

(** C9.  The defaults are 1000 iterations, a 128-bit salt, a 256-bit key and
    SHA-256; [init] sets the default hasher to what [New] returns on them,
    and the package-level [Hash] and [Verify] return, on every input, what
    that hasher's [Hash] and [Verify] return. *)
Theorem default_hasher_delegation :
  DefaultIterationCount = 1000 /\ DefaultSaltSize = 128 /\ DefaultKeySize = 256 /\
  DefaultHashKey = HashSHA256 /\
  exists h,
    New 1000 128 256 HashSHA256 = (Some h, None) /\
    defaultHasher = Some h /\
    forall (K : Pbkdf2) (src : entropy) (pwd : bytes) (hash : slice),
      Hash K src pwd = hasher_Hash K h src pwd /\
      Verify K pwd hash = hasher_Verify K h pwd hash.
Proof.
  do 4 (split; [reflexivity |]).
  exists sample_hasher. do 2 (split; [reflexivity |]).
  intros K src pwd hash. split; reflexivity.
Qed.

(** ** An unknown hash key *)



(** ** Hashes made under another configuration *)

(** A hash made by one hasher, whose allocations stay below the ceiling,
    and verified by another, both for the same password: the verifier
    accepts it when its own salt and key sizes are at most the maker's,
    whatever its iteration count and hash key, and refuses it when either of
    its sizes is larger. *)
Theorem Verify_across_configurations (K : Pbkdf2) (iterCtn saltBits keyBits key : Z)
    (maker verifier : hasher) (src : entropy) (pwd : bytes) :
  New iterCtn saltBits keyBits key = (Some maker, None) ->
  key = HashSHA256 \/ key = HashSHA512 ->
  iterCnt maker < 2 ^ 32 -> saltSize maker < 2 ^ 32 -> allocatable maker ->
  exists out,
    result (hasher_Hash K maker src pwd) = Ret out /\
    (saltSize verifier <= saltSize maker -> keySize verifier <= keySize maker ->
       result (hasher_Verify K verifier pwd (full out)) = Ret true) /\
    (saltSize maker < saltSize verifier \/ keySize maker < keySize verifier ->
       result (hasher_Verify K verifier pwd (full out)) = Ret false).
Proof.
  intros HN Hkey Hi32 Hs32 _.
  destruct (New_sizes _ _ _ _ _ HN) as (Hi & Hs & Hk & Hhk).
  destruct (hasher_Hash_New K _ _ _ _ maker src pwd HN Hkey) as (d & Hd & ->).
  pose proof (salt_read_len src (saltSize maker)) as Hsl.
  pose proof (derive_length K pwd (salt_read src (saltSize maker)) (iterCnt maker)
                (keySize maker) d) as Hkl.
  eexists. split; [reflexivity |]. split.
  - intros Hsv Hkv. unfold full.
    rewrite (hasher_Verify_encoded K verifier pwd _ [] _ _ (keySize maker) d);
      rewrite ?Hsl; try first [exact Hd | reflexivity | lia].
  - intros [Hsv | Hkv].
    + apply hasher_Verify_small_salt. unfold full. simpl elems.
      rewrite encoded_saltLen, Hsl by lia. rewrite Z.mod_small by lia. exact Hsv.
    + apply hasher_Verify_small_key. unfold full. simpl elems.
      rewrite encoded_saltLen, encoded_len, Hsl, Hkl by lia.
      rewrite Z.mod_small by lia. lia.
Qed.

Lemma Verify_across_configurations_witness :
  let laxer := {| iterCnt := 5; saltSize := 8; keySize := 16; hashKey := 2 |} in
  New 1000 128 256 1 = (Some sample_hasher, None) /\
  exists out,
    result (hasher_Hash sample_pbkdf2 sample_hasher sample_entropy sample_password) = Ret out /\
    result (hasher_Verify sample_pbkdf2 laxer sample_password (full out)) = Ret true.
Proof.
  intros laxer. split; [reflexivity |].
  destruct (Verify_across_configurations sample_pbkdf2 1000 128 256 1 sample_hasher laxer
              sample_entropy sample_password) as (out & HH & Hacc & _);
    [reflexivity | left; reflexivity | reflexivity | reflexivity | run_model |].
  exists out. split; [exact HH |]. apply Hacc; discriminate.
Defined.

(** ** Iteration counts of [2^32] and more *)

(** On a hasher that [New] returned with a known hash key and a salt shorter
    than [2^32] bytes, whose allocations stay below the ceiling, whatever
    its iteration count: [Verify] re-derives
    with the iteration count modulo [2^32], so it accepts the hasher's own
    hash of the same password exactly when PBKDF2 gives the same sub-key for
    both counts. *)
Theorem roundtrip_iff_same_key (K : Pbkdf2) (iterCtn saltBits keyBits key : Z)
    (h : hasher) (src : entropy) (pwd : bytes) :
  New iterCtn saltBits keyBits key = (Some h, None) ->
  key = HashSHA256 \/ key = HashSHA512 ->
  saltSize h < 2 ^ 32 -> allocatable h ->
  exists out d b,
    digest_of key = Some d /\
    result (hasher_Hash K h src pwd) = Ret out /\
    result (hasher_Verify K h pwd (full out)) = Ret b /\
    (b = true <->
     derive K pwd (salt_read src (saltSize h)) (iterCnt h mod 2 ^ 32) (keySize h) d
     = derive K pwd (salt_read src (saltSize h)) (iterCnt h) (keySize h) d).
Proof.
  intros HN Hkey Hs32 _.
  destruct (New_sizes _ _ _ _ _ HN) as (Hi & Hs & Hk & Hhk).
  destruct (hasher_Hash_New K _ _ _ _ h src pwd HN Hkey) as (d & Hd & ->).
  pose proof (salt_read_len src (saltSize h)) as Hsl.
  pose proof (derive_length K pwd (salt_read src (saltSize h)) (iterCnt h) (keySize h) d)
    as Hkl.
  eexists. exists d. eexists. split; [rewrite <- Hhk; exact Hd |].
  split; [reflexivity |]. unfold full.
  rewrite (hasher_Verify_encoded_compares K h pwd _ _ [] _ _ d);
    rewrite ?Hsl, ?Hkl; try first [exact Hd | lia].
  split; [reflexivity |].
  rewrite Z.eqb_eq. apply ConstantTimeCompare_eq.
Qed.

Lemma roundtrip_iff_same_key_witness :
  New 4294967297 128 256 1 = (Some wide_iter_hasher, None) /\
  exists out b,
    result (hasher_Hash sample_pbkdf2 wide_iter_hasher sample_entropy sample_password) = Ret out /\
    result (hasher_Verify sample_pbkdf2 wide_iter_hasher sample_password (full out)) = Ret b /\
    (b = true <->
     derive sample_pbkdf2 sample_password sample_entropy 1 32 sha256_New
     = derive sample_pbkdf2 sample_password sample_entropy 4294967297 32 sha256_New).
Proof.
  split; [reflexivity |].
  destruct (roundtrip_iff_same_key sample_pbkdf2 4294967297 128 256 1 wide_iter_hasher
              sample_entropy sample_password) as (out & d & b & Hd & HH & HV & Hiff);
    [reflexivity | left; reflexivity | reflexivity | run_model |].
  exists out, b. split; [exact HH |]. split; [exact HV |].
  injection Hd as <-. exact Hiff.
Defined.

(** ** When [Verify] accepts *)

(** What an accepted hash looks like. *)
Lemma hasher_Verify_true_inv (K : Pbkdf2) (h : hasher) (pwd : bytes) (hash : slice) :
  result (hasher_Verify K h pwd hash) = Ret true ->
  13 <= len (elems hash) /\
  elems hash !! 0%nat = Some formatMarker /\
  exists d,
    digest_of (field (elems hash) 1) = Some d /\
    saltSize h <= field (elems hash) 9 /\
    13 + field (elems hash) 9 <= len (elems hash) /\
    keySize h <= len (elems hash) - 13 - field (elems hash) 9 /\
    derive K pwd (salt_of (elems hash) (field (elems hash) 9)) (field (elems hash) 5)
      (len (elems hash) - 13 - field (elems hash) 9) d
    = subKey_of (elems hash) (field (elems hash) 9).
Proof.
  intros Hacc. revert Hacc. verify_cases K h pwd hash; try discriminate.
  simpl result. intros Hacc.
  destruct (Z.ltb_spec (field (elems hash) 9) (saltSize h)); [discriminate |].
  destruct (cap hash <? 13 + field (elems hash) 9); [discriminate |].
  destruct (Z.ltb_spec (len (elems hash) - 13 - field (elems hash) 9) (keySize h));
    [discriminate |].
  destruct (Z.ltb_spec (len (elems hash) - 13 - field (elems hash) 9) 0);
    [discriminate |].
  assert (Hcmp : hasher_Verify K h pwd hash =
                 Run [(field (elems hash) 9, saltSize h)] (Ret true)).
  { rewrite (hasher_Verify_long K h pwd hash d Hlong Hm Hd). simpl.
    destruct (Z.ltb_spec (field (elems hash) 9) (saltSize h)); [lia |].
    destruct (cap hash <? 13 + field (elems hash) 9) eqn:Ecap.
    - exfalso. apply Z.ltb_lt in Ecap. unfold cap, len in *. lia.
    - destruct (Z.ltb_spec (len (elems hash) - 13 - field (elems hash) 9) (keySize h));
        [lia |].
      destruct (Z.ltb_spec (len (elems hash) - 13 - field (elems hash) 9) 0); [lia |].
      injection Hacc as ->. reflexivity. }
  rewrite (hasher_Verify_compares K h pwd hash d Hlong Hm Hd) in Hcmp by lia.
  injection Hcmp as Hcmp. apply Z.eqb_eq, ConstantTimeCompare_eq in Hcmp.
  split; [exact Hlong |]. split; [reflexivity |]. exists d.
  repeat split; try assumption; lia.
Qed.

(** The converse: such a hash is accepted. *)
Lemma hasher_Verify_true_intro (K : Pbkdf2) (h : hasher) (pwd : bytes) (hash : slice)
    (d : digest) :
  13 <= len (elems hash) -> elems hash !! 0%nat = Some formatMarker ->
  digest_of (field (elems hash) 1) = Some d ->
  saltSize h <= field (elems hash) 9 ->
  13 + field (elems hash) 9 <= len (elems hash) ->
  keySize h <= len (elems hash) - 13 - field (elems hash) 9 ->
  derive K pwd (salt_of (elems hash) (field (elems hash) 9)) (field (elems hash) 5)
    (len (elems hash) - 13 - field (elems hash) 9) d
  = subKey_of (elems hash) (field (elems hash) 9) ->
  hasher_Verify K h pwd hash = Run [(field (elems hash) 9, saltSize h)] (Ret true).
Proof.
  intros Hlen Hm Hd Hs Hfit Hk Heq.
  rewrite (hasher_Verify_compares K h pwd hash d Hlen Hm Hd) by lia.
  simpl. rewrite Heq, ConstantTimeCompare_refl. reflexivity.
Qed.

(** [Verify] returns [true] exactly on a hash of at least 13 bytes that
    starts with the format marker, names a known digest, announces a salt
    that reaches the hasher's salt size and fits in the hash, leaves a
    sub-key that reaches the hasher's key size, and whose sub-key is the one
    PBKDF2 derives from the password, the stored salt, the stored iteration
    count and the stored digest at the stored length. *)
Theorem Verify_accepts_iff (K : Pbkdf2) (h : hasher) (pwd : bytes) (hash : slice) :
  result (hasher_Verify K h pwd hash) = Ret true <->
  13 <= len (elems hash) /\
  elems hash !! 0%nat = Some formatMarker /\
  exists d,
    digest_of (field (elems hash) 1) = Some d /\
    saltSize h <= field (elems hash) 9 /\
    13 + field (elems hash) 9 <= len (elems hash) /\
    keySize h <= len (elems hash) - 13 - field (elems hash) 9 /\
    derive K pwd (salt_of (elems hash) (field (elems hash) 9)) (field (elems hash) 5)
      (len (elems hash) - 13 - field (elems hash) 9) d
    = subKey_of (elems hash) (field (elems hash) 9).
Proof.
  split; [apply hasher_Verify_true_inv |].
  intros (Hlen & Hm & d & Hd & Hs & Hfit & Hk & Heq).
  rewrite (hasher_Verify_true_intro K h pwd hash d) by assumption. reflexivity.
Qed.

(** ** Floors, capacity and tampering *)

(** Lowering the floors keeps an accepted hash accepted. *)
Theorem Verify_monotone_in_floors (K : Pbkdf2) (h h' : hasher) (pwd : bytes) (hash : slice) :
  result (hasher_Verify K h pwd hash) = Ret true ->
  saltSize h' <= saltSize h -> keySize h' <= keySize h ->
  result (hasher_Verify K h' pwd hash) = Ret true.
Proof.
  intros Hacc Hs Hk.
  apply hasher_Verify_true_inv in Hacc
    as (Hlen & Hm & d & Hd & Hs0 & Hfit & Hk0 & Heq).
  rewrite (hasher_Verify_true_intro K h' pwd hash d) by (try assumption; lia).
  reflexivity.
Qed.

Lemma Verify_monotone_in_floors_witness :
  let laxer := {| iterCnt := 5; saltSize := 8; keySize := 16; hashKey := 237 |} in
  result (hasher_Verify sample_pbkdf2 sample_hasher sample_password (full sample_hash))
    = Ret true /\
  result (hasher_Verify sample_pbkdf2 laxer sample_password (full sample_hash)) = Ret true.
Proof.
  intros laxer. split; [reflexivity |].
  apply (Verify_monotone_in_floors sample_pbkdf2 sample_hasher laxer sample_password
           (full sample_hash)); run_model.
Defined.

(** The bytes between the length and the capacity of the slice have no part
    in the verdict, nor in what is printed. *)
Theorem Verify_ignores_spare_capacity (K : Pbkdf2) (h : hasher) (pwd buf sp : bytes) :
  hasher_Verify K h pwd (Slice buf sp) = hasher_Verify K h pwd (full buf).
Proof.
  unfold full.
  verify_cases K h pwd (Slice buf sp).
  - rewrite (hasher_Verify_short K h pwd (Slice buf [])) by exact Hshort. reflexivity.
  - rewrite (hasher_Verify_long K h pwd (Slice buf []) d Hlong Hm Hd).
    simpl elems in *. simpl spare. rewrite app_nil_r.
    assert (Hsalt : 0 <= field buf 9 < 2 ^ 32)
      by (apply field_range; unfold len in Hlong; lia).
    unfold cap. simpl elems. simpl spare. change (len (@nil byte)) with 0.
    do 2 f_equal.
    destruct (Z.ltb_spec (field buf 9) (saltSize h)); [reflexivity |].
    destruct (Z.ltb_spec (len buf - 13 - field buf 9) (keySize h)) as [Hk | Hk];
      [destruct (_ <? _), (_ <? _); reflexivity |].
    destruct (Z.ltb_spec (len buf - 13 - field buf 9) 0) as [Hneg | Hpos];
      [destruct (_ <? _), (_ <? _); reflexivity |].
    destruct (Z.ltb_spec (len buf + len sp) (13 + field buf 9));
      [unfold len in *; lia |].
    destruct (Z.ltb_spec (len buf + 0) (13 + field buf 9)); [lia |].
    rewrite drop_app_le by (unfold len in *; lia).
    rewrite take_app_le by (rewrite length_drop; unfold len in *; lia).
    reflexivity.
  - rewrite (hasher_Verify_unknown K h pwd (Slice buf []) Hlong Hd). reflexivity.
  - rewrite (hasher_Verify_marker K h pwd (Slice buf []) m Hm Hne). reflexivity.
Qed.

Lemma field_insert_ge (buf : bytes) (off i : nat) (b : byte) :
  (off + 4 <= i)%nat -> field (<[i := b]> buf) off = field buf off.
Proof.
  intros H. unfold field. rewrite drop_insert_ge by lia.
  rewrite take_insert_ge by lia. reflexivity.
Qed.

Lemma field_take (buf : bytes) (off n : nat) :
  (off + 4 <= n)%nat -> field (take n buf) off = field buf off.
Proof.
  intros H. unfold field.
  replace n with (off + (n - off))%nat by lia.
  rewrite <- take_drop_commute, take_take. rewrite Nat.min_l by lia. reflexivity.
Qed.

(** An accepted hash with one byte of its sub-key replaced by another byte is
    refused. *)
Theorem Verify_rejects_tampered_subKey (K : Pbkdf2) (h : hasher) (pwd : bytes)
    (hash : slice) (i : nat) (b : byte) :
  result (hasher_Verify K h pwd hash) = Ret true ->
  (13 + Z.to_nat (field (elems hash) 9) <= i < length (elems hash))%nat ->
  elems hash !! i <> Some b ->
  result (hasher_Verify K h pwd (Slice (<[i := b]> (elems hash)) (spare hash))) = Ret false.
Proof.
  intros Hacc Hi Hb.
  apply hasher_Verify_true_inv in Hacc
    as (Hlen & Hm & d & Hd & Hs & Hfit & Hk & Heq).
  set (buf := elems hash) in *. set (saltLen := field buf 9) in *.
  assert (Hsalt : 0 <= saltLen < 2 ^ 32)
    by (apply field_range; unfold len in Hlen; lia).
  rewrite (hasher_Verify_compares K h pwd (Slice (<[i := b]> buf) (spare hash)) d);
    simpl elems; unfold len; rewrite ?length_insert, ?field_insert_ge by lia;
    fold (len buf); fold saltLen;
    try first [exact Hd | lia | (rewrite list_lookup_insert_ne by lia; exact Hm)].
  simpl. f_equal.
  apply Z.eqb_neq. intros Hcmp. apply ConstantTimeCompare_eq in Hcmp.
  assert (Hsame : salt_of (<[i := b]> buf) saltLen = salt_of buf saltLen).
  { unfold salt_of. rewrite drop_insert_ge by lia. rewrite take_insert_ge by lia.
    reflexivity. }
  rewrite Hsame, Heq in Hcmp.
  unfold subKey_of in Hcmp. rewrite drop_insert_ge in Hcmp by lia.
  apply (f_equal (fun l => l !! (i - (13 + Z.to_nat saltLen))%nat)) in Hcmp.
  rewrite list_lookup_insert_eq in Hcmp by (rewrite length_drop; lia).
  rewrite lookup_drop in Hcmp.
  replace (13 + Z.to_nat saltLen + (i - (13 + Z.to_nat saltLen)))%nat with i in Hcmp by lia.
  congruence.
Qed.

Lemma Verify_rejects_tampered_subKey_witness :
  result (hasher_Verify sample_pbkdf2 sample_hasher sample_password (full sample_hash))
    = Ret true /\
  result (hasher_Verify sample_pbkdf2 sample_hasher sample_password
            (full (<[60%nat := "#"%byte]> sample_hash))) = Ret false.
Proof.
  split; [run_model |].
  apply (Verify_rejects_tampered_subKey sample_pbkdf2 sample_hasher sample_password
           (full sample_hash) 60 "#"%byte); [run_model | | run_model].
  split; vm_compute; lia.
Defined.

(** ** Hashes cut short, and other passwords *)

(** No proper prefix of a hash is accepted by the hasher that made the hash
    (a hasher whose allocations stay below the ceiling), for any password and
    whatever capacity the prefix keeps. *)
Theorem Verify_rejects_truncated_Hash (K : Pbkdf2) (iterCtn saltBits keyBits key : Z)
    (h : hasher) (src : entropy) (pwd : bytes) :
  New iterCtn saltBits keyBits key = (Some h, None) ->
  key = HashSHA256 \/ key = HashSHA512 ->
  allocatable h ->
  exists out,
    result (hasher_Hash K h src pwd) = Ret out /\
    forall (n : nat) (sp pwd' : bytes),
      (n < length out)%nat ->
      result (hasher_Verify K h pwd' (Slice (take n out) sp)) = Ret false.
Proof.
  intros HN Hkey _.
  destruct (New_sizes _ _ _ _ _ HN) as (Hi & Hs & Hk & Hhk).
  destruct (hasher_Hash_New K _ _ _ _ h src pwd HN Hkey) as (d & Hd & ->).
  pose proof (salt_read_len src (saltSize h)) as Hsl.
  pose proof (derive_length K pwd (salt_read src (saltSize h)) (iterCnt h) (keySize h) d)
    as Hkl.
  eexists. split; [reflexivity |]. intros n sp pwd' Hn.
  set (out := encoded _ _ _ _) in *.
  assert (Hout : len out = 13 + saltSize h + keySize h)
    by (unfold out; rewrite encoded_len, Hsl, Hkl by lia; reflexivity).
  assert (Htake : len (take n out) = Z.of_nat n)
    by (unfold len in *; rewrite length_take; lia).
  destruct (Nat.lt_ge_cases n 13) as [Hshort | Hlong].
  { rewrite hasher_Verify_short by (simpl elems; lia). reflexivity. }
  assert (Hf : field (take n out) 9 = saltSize h mod 2 ^ 32).
  { rewrite field_take by lia. unfold out. rewrite encoded_saltLen, Hsl by lia.
    reflexivity. }
  pose proof (Z.mod_pos_bound (saltSize h) (2 ^ 32)) as Hmod.
  destruct (Z.lt_ge_cases (saltSize h mod 2 ^ 32) (saltSize h)) as [Hwrap | Hfull].
  { apply hasher_Verify_small_salt. simpl elems. rewrite Hf. exact Hwrap. }
  assert (Hsame : saltSize h mod 2 ^ 32 = saltSize h).
  { pose proof (Z.mod_le (saltSize h) (2 ^ 32)). lia. }
  apply hasher_Verify_small_key. simpl elems. rewrite Hf, Hsame, Htake.
  unfold len in Hout. lia.
Qed.

Lemma Verify_rejects_truncated_Hash_witness :
  New 1000 128 256 1 = (Some sample_hasher, None) /\
  exists out,
    result (hasher_Hash sample_pbkdf2 sample_hasher sample_entropy sample_password) = Ret out /\
    result (hasher_Verify sample_pbkdf2 sample_hasher sample_password
              (Slice (take 60 out) (drop 60 out))) = Ret false.
Proof.
  split; [reflexivity |].
  destruct (Verify_rejects_truncated_Hash sample_pbkdf2 1000 128 256 1 sample_hasher
              sample_entropy sample_password) as (out & HH & Hrej);
    [reflexivity | left; reflexivity | run_model |].
  exists out. split; [exact HH |]. apply Hrej.
  injection HH as <-. vm_compute. lia.
Defined.

(** [Verify] of another password against a hash (made by a hasher whose
    allocations stay below the ceiling) accepts it exactly when PBKDF2
    derives, from the salt of the hash, the same sub-key for both
    passwords. *)
Theorem Verify_other_password (K : Pbkdf2) (iterCtn saltBits keyBits key : Z)
    (h : hasher) (src : entropy) (pwd pwd' : bytes) :
  New iterCtn saltBits keyBits key = (Some h, None) ->
  key = HashSHA256 \/ key = HashSHA512 ->
  iterCnt h < 2 ^ 32 -> saltSize h < 2 ^ 32 -> allocatable h ->
  exists out d b,
    digest_of key = Some d /\
    result (hasher_Hash K h src pwd) = Ret out /\
    result (hasher_Verify K h pwd' (full out)) = Ret b /\
    (b = true <->
     derive K pwd' (salt_read src (saltSize h)) (iterCnt h) (keySize h) d
     = derive K pwd (salt_read src (saltSize h)) (iterCnt h) (keySize h) d).
Proof.
  intros HN Hkey Hi32 Hs32 _.
  destruct (New_sizes _ _ _ _ _ HN) as (Hi & Hs & Hk & Hhk).
  destruct (hasher_Hash_New K _ _ _ _ h src pwd HN Hkey) as (d & Hd & ->).
  pose proof (salt_read_len src (saltSize h)) as Hsl.
  pose proof (derive_length K pwd (salt_read src (saltSize h)) (iterCnt h) (keySize h) d)
    as Hkl.
  eexists. exists d. eexists. split; [rewrite <- Hhk; exact Hd |].
  split; [reflexivity |]. unfold full.
  rewrite (hasher_Verify_encoded_compares K h pwd' _ _ [] _ _ d);
    rewrite ?Hsl, ?Hkl; try first [exact Hd | lia].
  split; [reflexivity |].
  rewrite Z.mod_small by lia. rewrite Z.eqb_eq. apply ConstantTimeCompare_eq.
Qed.

Lemma Verify_other_password_witness :
  New 1000 128 256 1 = (Some sample_hasher, None) /\
  exists out b,
    result (hasher_Hash sample_pbkdf2 sample_hasher sample_entropy sample_password) = Ret out /\
    result (hasher_Verify sample_pbkdf2 sample_hasher ("x"%byte :: sample_password) (full out))
      = Ret b /\
    (b = true <->
     derive sample_pbkdf2 ("x"%byte :: sample_password) sample_entropy 1000 32 sha256_New
     = derive sample_pbkdf2 sample_password sample_entropy 1000 32 sha256_New).
Proof.
  split; [reflexivity |].
  destruct (Verify_other_password sample_pbkdf2 1000 128 256 1 sample_hasher
              sample_entropy sample_password ("x"%byte :: sample_password))
    as (out & d & b & Hd & HH & HV & Hiff);
    [reflexivity | left; reflexivity | reflexivity | reflexivity | run_model |].
  exists out, b. split; [exact HH |]. split; [exact HV |].
  injection Hd as <-. exact Hiff.
Defined.

(** ** [writeHeaderValue] and [scanHeader] on any buffer *)

Lemma store_cases (buf : bytes) (i : Z) (v : byte) :
  (exists buf', store buf i v = ret buf' /\ len buf' = len buf) \/
  (exists p, store buf i v = panic p).
Proof.
  unfold store. destruct ((0 <=? i) && (i <? len buf)); [left | right; eauto].
  eexists. split; [reflexivity |]. unfold len. rewrite length_insert. reflexivity.
Qed.

Lemma store_out (buf : bytes) (i : Z) (v : byte) :
  len buf <= i -> store buf i v = panic (IndexOutOfRange i (len buf)).
Proof.
  intros H. unfold store. destruct (Z.ltb_spec i (len buf)); [lia |].
  rewrite andb_false_r. reflexivity.
Qed.

Lemma four_at (buf : bytes) (off : nat) :
  (off + 4 <= length buf)%nat ->
  exists a b c d, buf = take off buf ++ a :: b :: c :: d :: drop (off + 4) buf.
Proof.
  intros H.
  destruct (lookup_lt_is_Some_2 buf off) as [a Ha]; [lia |].
  destruct (lookup_lt_is_Some_2 buf (S off)) as [b Hb]; [lia |].
  destruct (lookup_lt_is_Some_2 buf (S (S off))) as [c Hc]; [lia |].
  destruct (lookup_lt_is_Some_2 buf (S (S (S off)))) as [d Hd]; [lia |].
  exists a, b, c, d.
  rewrite <- (take_drop off buf) at 1. f_equal.
  rewrite (drop_S _ _ _ Ha), (drop_S _ _ _ Hb), (drop_S _ _ _ Hc), (drop_S _ _ _ Hd).
  do 4 f_equal. f_equal. lia.
Qed.

(** With room for four bytes at [off], [writeHeaderValue] replaces exactly
    those. *)
Lemma writeHeaderValue_room (buf : bytes) (off : nat) (value : Z) :
  (off + 4 <= length buf)%nat ->
  writeHeaderValue buf (Z.of_nat off) value =
  ret (take off buf ++
       [byte_of_Z (Z.shiftr value 24); byte_of_Z (Z.shiftr value 16);
        byte_of_Z (Z.shiftr value 8); byte_of_Z (Z.shiftr value 0)] ++
       drop (off + 4) buf).
Proof.
  intros H. destruct (four_at buf off H) as (a & b & c & d & E).
  assert (Hpre : len (take off buf) = Z.of_nat off)
    by (unfold len; rewrite length_take; lia).
  remember (take off buf) as pre. remember (drop (off + 4) buf) as post.
  rewrite E, <- Hpre. apply writeHeaderValue_ok.
Qed.

(** Without room, it panics. *)
Lemma writeHeaderValue_short (buf : bytes) (offset value : Z) :
  len buf < offset + 4 -> exists p, writeHeaderValue buf offset value = panic p.
Proof.
  intros H. unfold writeHeaderValue.
  destruct (store_cases buf (offset + 0) (byte_of_Z (Z.shiftr value 24)))
    as [(b1 & -> & H1) | [p ->]]; [| eauto].
  rewrite bind_ret.
  destruct (store_cases b1 (offset + 1) (byte_of_Z (Z.shiftr value 16)))
    as [(b2 & -> & H2) | [p ->]]; [| eauto].
  rewrite bind_ret.
  destruct (store_cases b2 (offset + 2) (byte_of_Z (Z.shiftr value 8)))
    as [(b3 & -> & H3) | [p ->]]; [| eauto].
  rewrite bind_ret. rewrite store_out by lia. eauto.
Qed.

(** [writeHeaderValue] on a buffer with at least [off + 4] bytes returns a
    buffer of the same length that holds, at [off], the bytes of [value]
    shifted right by 24, 16, 8 and 0 bits, and every other byte as before;
    on a shorter buffer it panics. *)
Theorem writeHeaderValue_frame (buf : bytes) (off : nat) (value : Z) :
  ((off + 4 <= length buf)%nat ->
   exists buf',
     writeHeaderValue buf (Z.of_nat off) value = ret buf' /\
     length buf' = length buf /\
     take 4 (drop off buf') =
       [byte_of_Z (Z.shiftr value 24); byte_of_Z (Z.shiftr value 16);
        byte_of_Z (Z.shiftr value 8); byte_of_Z value] /\
     forall i, (i < off \/ off + 4 <= i)%nat -> buf' !! i = buf !! i) /\
  ((length buf < off + 4)%nat ->
   exists p, writeHeaderValue buf (Z.of_nat off) value = panic p).
Proof.
  split.
  - intros H. rewrite (writeHeaderValue_room buf off value H).
    eexists. split; [reflexivity |].
    assert (Hpre : length (take off buf) = off) by (rewrite length_take; lia).
    split; [| split].
    + rewrite !length_app, Hpre, length_drop. simpl. lia.
    + rewrite drop_app_length' by (symmetry; exact Hpre). reflexivity.
    + intros i [Hi | Hi].
      * rewrite lookup_app_l by lia. apply lookup_take_lt. exact Hi.
      * rewrite lookup_app_r by lia. rewrite Hpre.
        rewrite lookup_app_r by (simpl; lia). simpl length.
        rewrite lookup_drop. f_equal. lia.
  - intros H. apply writeHeaderValue_short. unfold len. lia.
Qed.

Lemma fields_of_header (m : byte) (key iter saltLen : Z) (rest : bytes) :
  field (m :: be32 key ++ be32 iter ++ be32 saltLen ++ rest) 1 = key mod 2 ^ 32 /\
  field (m :: be32 key ++ be32 iter ++ be32 saltLen ++ rest) 5 = iter mod 2 ^ 32 /\
  field (m :: be32 key ++ be32 iter ++ be32 saltLen ++ rest) 9 = saltLen mod 2 ^ 32.
Proof.
  split; [| split]; rewrite <- be_value_be32; reflexivity.
Qed.

(** The header codec round trip.  On any buffer of at least 13 bytes, the
    three calls of [writeHeaderValue] that [Hash] makes, for a hash key whose
    low 32 bits name a digest, succeed, and [scanHeader] on the result
    returns that digest, the iteration count modulo [2^32] and the salt
    length modulo [2^32]; byte 0 and the bytes from offset 13 on are
    untouched. *)
Theorem header_codec_roundtrip (buf : bytes) (key iter saltLen : Z) (d : digest) :
  13 <= len buf -> digest_of (key mod 2 ^ 32) = Some d ->
  exists buf',
    (let* b := writeHeaderValue buf 1 (uint_of_int key) in
     let* b := writeHeaderValue b 5 (uint_of_int iter) in
     writeHeaderValue b 9 (uint_of_int saltLen)) = ret buf' /\
    scanHeader buf' = ret (Header (Some d) (iter mod 2 ^ 32) (saltLen mod 2 ^ 32)) /\
    buf' !! 0%nat = buf !! 0%nat /\ drop 13 buf' = drop 13 buf.
Proof.
  intros Hlen Hd.
  do 13 (destruct buf as [| ? buf]; [unfold len in Hlen; simpl in Hlen; lia |]).
  erewrite (writeHeaderValue_at _ [_]); [| reflexivity | reflexivity].
  rewrite bind_ret.
  erewrite (writeHeaderValue_at _ [_; _; _; _; _]); [| reflexivity | reflexivity].
  rewrite bind_ret.
  erewrite (writeHeaderValue_at _ [_; _; _; _; _; _; _; _; _]); [| reflexivity | reflexivity].
  eexists. split; [reflexivity |].
  split; [| split; reflexivity].
  rewrite scanHeader_long by (unfold len in *; simpl in *; lia).
  match goal with
  | |- context [field ?l 1] =>
      change l with (b :: be32 key ++ be32 iter ++ be32 saltLen ++ buf)
  end.
  destruct (fields_of_header b key iter saltLen buf) as (-> & -> & ->).
  rewrite (alg_digest_of _ _ Hd), bind_ret. reflexivity.
Qed.

Lemma header_codec_roundtrip_witness :
  exists buf',
    (let* b := writeHeaderValue (replicate 13 x00) 1 (uint_of_int 4294967298) in
     let* b := writeHeaderValue b 5 (uint_of_int 1000) in
     writeHeaderValue b 9 (uint_of_int (-1))) = ret buf' /\
    scanHeader buf' = ret (Header (Some sha512_New) 1000 4294967295) /\
    buf' !! 0%nat = Some x00 /\ drop 13 buf' = [].
Proof.
  apply (header_codec_roundtrip (replicate 13 x00) 4294967298 1000 (-1) sha512_New);
    run_model.
Defined.

(** When [scanHeader] returns, the buffer has at least 13 bytes, its first
    field is one of the two hash keys, the digest returned is the one of
    that key, and the iteration count and salt size returned are the second
    and third field, each at least 0 and below [2^32]. *)
Theorem scanHeader_returns (buf : bytes) (hdr : header) :
  result (scanHeader buf) = Ret hdr ->
  13 <= len buf /\
  (field buf 1 = HashSHA256 \/ field buf 1 = HashSHA512) /\
  is_Some (hashAlg hdr) /\ hashAlg hdr = digest_of (field buf 1) /\
  hdr_iterCnt hdr = field buf 5 /\ 0 <= hdr_iterCnt hdr < 2 ^ 32 /\
  hdr_saltSize hdr = field buf 9 /\ 0 <= hdr_saltSize hdr < 2 ^ 32.
Proof.
  intros H.
  destruct (Z.lt_ge_cases (len buf) 13) as [Hshort | Hlong].
  { destruct (scanHeader_short buf Hshort) as [p Hp]. rewrite Hp in H. discriminate. }
  rewrite scanHeader_long in H by exact Hlong.
  destruct (digest_of (field buf 1)) as [d |] eqn:Hd.
  - rewrite (alg_digest_of _ _ Hd), bind_ret in H. injection H as <-. simpl.
    assert (Hk : is_Some (digest_of (field buf 1))) by (rewrite Hd; eauto).
    apply digest_of_known in Hk.
    pose proof (field_range buf 5) as H5. pose proof (field_range buf 9) as H9.
    unfold len in Hlong.
    repeat split; eauto; try (apply H5; lia); try (apply H9; lia); lia.
  - rewrite (alg_unknown _ Hd) in H. discriminate.
Qed.

Lemma scanHeader_returns_witness :
  result (scanHeader sample_hash) = Ret (Header (Some sha256_New) 1000 16) /\
  13 <= len sample_hash /\ field sample_hash 5 = 1000 /\ field sample_hash 9 = 16.
Proof.
  assert (H : result (scanHeader sample_hash) = Ret (Header (Some sha256_New) 1000 16))
    by run_model.
  split; [exact H |].
  destruct (scanHeader_returns sample_hash _ H) as (Hlen & _ & _ & _ & H5 & _ & H9 & _).
  split; [exact Hlen |]. split; [symmetry; exact H5 | symmetry; exact H9].
Defined.

(** ** Standard output *)

Lemma silent_bind {A B : Type} (m : run A) (f : A -> run B) :
  stdout m = [] -> (forall a, stdout (f a) = []) -> stdout (bind m f) = [].
Proof.
  intros Hm Hf. unfold bind. destruct (result m); simpl; rewrite Hm; [apply Hf | reflexivity].
Qed.

Lemma silent_make (n : Z) : stdout (make n) = [].
Proof. unfold make. destruct (n <? 0); reflexivity. Qed.

Lemma silent_alg (key : Z) : stdout (alg key) = [].
Proof.
  unfold alg. destruct (key =? HashSHA256); [reflexivity |].
  destruct (key =? HashSHA512); reflexivity.
Qed.

Lemma silent_pbkdf2_Key (K : Pbkdf2) (pwd salt : bytes) (iter keyLen : Z) (d : option digest) :
  stdout (pbkdf2_Key K pwd salt iter keyLen d) = [].
Proof. unfold pbkdf2_Key. destruct d; [destruct (keyLen <? 0) |]; reflexivity. Qed.

Lemma silent_store (buf : bytes) (i : Z) (v : byte) : stdout (store buf i v) = [].
Proof. unfold store. destruct ((0 <=? i) && (i <? len buf)); reflexivity. Qed.

Lemma silent_writeHeaderValue (buf : bytes) (offset value : Z) :
  stdout (writeHeaderValue buf offset value) = [].
Proof.
  unfold writeHeaderValue.
  repeat (apply silent_bind; [apply silent_store | intros ?]). reflexivity.
Qed.

Lemma silent_copy_from (buf : bytes) (lo : Z) (src : bytes) :
  stdout (copy_from buf lo src) = [].
Proof. unfold copy_from. destruct ((0 <=? lo) && (lo <=? len buf)); reflexivity. Qed.

(** [Hash] writes nothing on standard output, on any hasher, panic or not.
    [Verify] writes one line, the salt length of the header and the salt
    size of the hasher, exactly when the hash has at least 13 bytes, starts
    with the format marker and names a known digest: also when it then
    refuses the hash; on any other hash it writes nothing. *)
Theorem standard_output (K : Pbkdf2) (h : hasher) (pwd : bytes) :
  (forall src, stdout (hasher_Hash K h src pwd) = []) /\
  (forall hash,
     13 <= len (elems hash) -> elems hash !! 0%nat = Some formatMarker ->
     is_Some (digest_of (field (elems hash) 1)) ->
     stdout (hasher_Verify K h pwd hash) = [(field (elems hash) 9, saltSize h)]) /\
  (forall hash,
     len (elems hash) < 13 \/ elems hash !! 0%nat <> Some formatMarker \/
     digest_of (field (elems hash) 1) = None ->
     stdout (hasher_Verify K h pwd hash) = []).
Proof.
  split; [| split].
  - intros src. unfold hasher_Hash.
    apply silent_bind; [apply silent_make | intros ?].
    apply silent_bind; [apply silent_alg | intros ?].
    apply silent_bind; [apply silent_pbkdf2_Key | intros ?].
    apply silent_bind; [apply silent_make | intros ?].
    apply silent_bind; [apply silent_store | intros ?].
    do 3 (apply silent_bind; [apply silent_writeHeaderValue | intros ?]).
    do 2 (apply silent_bind; [apply silent_copy_from | intros ?]).
    reflexivity.
  - intros hash Hlen Hm [d Hd].
    rewrite (hasher_Verify_long K h pwd hash d Hlen Hm Hd). reflexivity.
  - intros hash Hbad. verify_cases K h pwd hash; try reflexivity.
    destruct Hbad as [Hbad | [Hbad | Hbad]]; [lia | congruence | congruence].
Qed.

Lemma standard_output_witness :
  let stricter := {| iterCnt := 1000; saltSize := 32; keySize := 32; hashKey := 1 |} in
  stdout (hasher_Verify sample_pbkdf2 stricter sample_password (full sample_hash))
    = [(field sample_hash 9, 32)] /\
  field sample_hash 9 = 16 /\
  result (hasher_Verify sample_pbkdf2 stricter sample_password (full sample_hash))
    = Ret false /\
  stdout (hasher_Verify sample_pbkdf2 stricter sample_password (full unknown_digest_hash))
    = [].
Proof.
  intros stricter. split; [| split; [| split]].
  - apply (proj1 (proj2 (standard_output sample_pbkdf2 stricter sample_password))
             (full sample_hash)); [run_model | run_model |].
    exists sha256_New. run_model.
  - run_model.
  - run_model.
  - apply (proj2 (proj2 (standard_output sample_pbkdf2 stricter sample_password))
             (full unknown_digest_hash)).
    right. right. run_model.
Defined.

(** ** The salt and the random source *)

Lemma salt_read_take (src : entropy) (n : Z) :
  salt_read (take (Z.to_nat n) src) n = salt_read src n.
Proof.
  unfold salt_read, rand_Read. cbn [fst].
  rewrite length_take, length_replicate.
  replace (Nat.min (Nat.min (Z.to_nat n) (length src)) (Z.to_nat n))
    with (Nat.min (length src) (Z.to_nat n)) by lia.
  rewrite take_take.
  replace (Nat.min (Nat.min (length src) (Z.to_nat n)) (Z.to_nat n))
    with (Nat.min (length src) (Z.to_nat n)) by lia.
  reflexivity.
Qed.

Lemma ret_inj {A : Type} (a b : A) : ret a = ret b -> a = b.
Proof. intros H. apply (f_equal result) in H. simpl in H. congruence. Qed.

Lemma encoded_inj_salt (key iter : Z) (salt salt' subKey subKey' : bytes) :
  length salt = length salt' ->
  encoded key iter salt subKey = encoded key iter salt' subKey' ->
  salt = salt' /\ subKey = subKey'.
Proof.
  intros Hlen H. apply (f_equal (drop 13)) in H. rewrite !encoded_body in H.
  apply app_inj_1 in H; assumption.
Qed.

(** On a hasher whose allocations stay below the ceiling, [Hash] uses the
    first [saltSize] bytes of the random source and no others; when two
    sources both deliver [saltSize] bytes and these differ, [Hash] returns
    two different hashes of one password. *)
Theorem Hash_depends_on_salt (K : Pbkdf2) (iterCtn saltBits keyBits key : Z)
    (h : hasher) (src src' : entropy) (pwd : bytes) :
  New iterCtn saltBits keyBits key = (Some h, None) ->
  key = HashSHA256 \/ key = HashSHA512 ->
  allocatable h ->
  hasher_Hash K h (take (Z.to_nat (saltSize h)) src) pwd = hasher_Hash K h src pwd /\
  (saltSize h <= len src -> saltSize h <= len src' ->
   take (Z.to_nat (saltSize h)) src <> take (Z.to_nat (saltSize h)) src' ->
   exists out out',
     result (hasher_Hash K h src pwd) = Ret out /\
     result (hasher_Hash K h src' pwd) = Ret out' /\
     out <> out').
Proof.
  intros HN Hkey _.
  destruct (New_sizes _ _ _ _ _ HN) as (Hi & Hs & Hk & Hhk).
  destruct (hasher_Hash_New K _ _ _ _ h src pwd HN Hkey) as (d & Hd & HH).
  split.
  - rewrite HH, (hasher_Hash_ok K h _ pwd d) by (try lia; exact Hd).
    rewrite salt_read_take. reflexivity.
  - intros Hsrc Hsrc' Hne.
    rewrite HH, (hasher_Hash_ok K h src' pwd d) by (try lia; exact Hd).
    eexists. eexists. split; [reflexivity |]. split; [reflexivity |].
    intros Heq.
    apply encoded_inj_salt in Heq as [Hsalt _].
    + apply Hne. unfold salt_read in Hsalt.
      rewrite !rand_Read_enough in Hsalt
        by (rewrite length_replicate; unfold len in *; lia).
      simpl in Hsalt. rewrite length_replicate in Hsalt. exact Hsalt.
    + pose proof (salt_read_len src (saltSize h)) as H1.
      pose proof (salt_read_len src' (saltSize h)) as H2. unfold len in *. lia.
Qed.

Lemma Hash_depends_on_salt_witness :
  New 1000 128 256 1 = (Some sample_hasher, None) /\
  allocatable sample_hasher /\
  exists out out',
    result (hasher_Hash sample_pbkdf2 sample_hasher sample_entropy sample_password)
      = Ret out /\
    result (hasher_Hash sample_pbkdf2 sample_hasher (replicate 16 "z"%byte) sample_password)
      = Ret out' /\
    out <> out'.
Proof.
  split; [reflexivity |]. split; [run_model |].
  apply (proj2 (Hash_depends_on_salt sample_pbkdf2 1000 128 256 1 sample_hasher
                  sample_entropy (replicate 16 "z"%byte) sample_password
                  eq_refl (or_introl eq_refl) ltac:(run_model))); run_model.
Defined.

(** ** The package-level functions *)

(** For every password and random source, the package-level [Hash] returns a
    hash of 61 bytes and the package-level [Verify] of the same password
    against it returns [true]; the package-level [Verify] returns a boolean
    on every hash. *)
Theorem package_roundtrip (K : Pbkdf2) (src : entropy) (pwd : bytes) :
  (exists out,
     result (Hash K src pwd) = Ret out /\ len out = 61 /\
     result (Verify K pwd (full out)) = Ret true) /\
  (forall pwd' hash, exists b, result (Verify K pwd' hash) = Ret b).
Proof.
  change (Hash K src pwd) with (hasher_Hash K sample_hasher src pwd).
  split.
  - rewrite (hasher_Hash_ok K sample_hasher src pwd sha256_New) by run_model.
    pose proof (salt_read_len src (saltSize sample_hasher)) as Hsl.
    pose proof (derive_length K pwd (salt_read src (saltSize sample_hasher))
                  (iterCnt sample_hasher) (keySize sample_hasher) sha256_New) as Hkl.
    eexists. split; [reflexivity |].
    split; [rewrite encoded_len, Hsl, Hkl by (simpl; lia); reflexivity |].
    change (Verify K pwd ?x) with (hasher_Verify K sample_hasher pwd x).
    unfold full.
    rewrite (hasher_Verify_encoded K sample_hasher pwd _ [] _ _ 32 sha256_New);
      rewrite ?Hsl; simpl; try first [reflexivity | lia].
  - intros pwd' hash.
    change (Verify K pwd' hash) with (hasher_Verify K sample_hasher pwd' hash).
    apply hasher_Verify_returns.
Qed.

(** ** The sample hashers and the ceiling *)

(** The default configuration and the two configurations past the range of
    a header field all allocate below the ceiling. *)
Lemma sample_hashers_allocatable :
  allocatable sample_hasher /\ allocatable wide_salt_hasher /\ allocatable wide_iter_hasher.
Proof. repeat split; run_model. Qed.
